(** * Huffman coding: tree construction, code derivation, encoding, decoding

    A shallow embedding of [HuffEncrypt.go] and of its companion decoding
    program (the two files share [Node], [Nodes], [BuildHuffmanTree],
    [BuildHuffmanCodes]; the first adds [EncryptFile], the second
    [DecryptFile]).

    Conventions of the embedding.
    - A Go [rune] and a Go [int] are integers in [Z]; [int] addition wraps
      around at 64 bits ([int_add]).
    - A Go [string] is the list of runes that [for _, c := range s] visits.
    - A [*Node] is an [option Node]: [None] is the nil pointer.  The programs
      never mutate a node after creating it, so nodes are plain values.
    - [map[rune]int] and [map[rune]string] are [gmap]s.  The order in which
      [range] visits a map is not specified by Go: the function takes the
      visiting order as an argument, a permutation of the map's entries.
    - [sort.Sort] is a library routine, known by its contract only (the result
      is a rearrangement of the slice that is ascending for [Less]; equal
      elements may be reordered).  The embedding takes it as a parameter
      satisfying [SortSpec]; two concrete routines of Go's [sort] package are
      given as instances. *)

From stdpp Require Import base gmap list sorting strings.
From Stdlib Require Import ZArith Lia.

Local Open Scope Z_scope.

(** ** Machine integers *)

Definition int_bits : Z := 64.
Definition int_min : Z := - 2 ^ (int_bits - 1).
Definition int_max : Z := 2 ^ (int_bits - 1) - 1.

(** Two's complement wrap-around of a mathematical integer into [int]. *)
Definition wrap (z : Z) : Z := (z - int_min) mod 2 ^ int_bits + int_min.

Definition is_int (z : Z) : Prop := int_min ≤ z ≤ int_max.

(** [a + b] on Go [int]s. *)
Definition int_add (a b : Z) : Z := wrap (a + b).

(** ** Runes and strings *)

(** ['0'] and ['1']. *)
Definition rune_0 : Z := 48.
Definition rune_1 : Z := 49.

(** The Unicode replacement character, U+FFFD. *)
Definition RuneError : Z := 65533.

(** A Unicode scalar value: what [range] over a string yields. *)
Definition valid_rune (r : Z) : bool :=
  ((0 <=? r) && (r <? 55296)) || ((57344 <=? r) && (r <=? 1114111)).

(** The conversion [string(r)] of a rune: the one-character string holding
    [r], or U+FFFD when [r] is not a valid code point. *)
Definition string_of_rune (r : Z) : list Z :=
  if valid_rune r then [r] else [RuneError].

(** ** Outcomes of a run *)

Inductive panic : Type :=
| IndexOutOfRange   (* [nodes[0]] on an empty slice *)
| NilDereference.   (* field access through a nil [*Node] *)

Inductive outcome (A : Type) : Type :=
| Ret (a : A)        (* the function returns [a] *)
| Panic (p : panic)  (* the Go run time panics *)
| OutOfFuel.         (* the loop model ran out of fuel *)
Arguments Ret {A} a.
Arguments Panic {A} p.
Arguments OutOfFuel {A}.

(** ** The tree *)

(** [type Node struct { Char rune; Freq int; Left, Right *Node; IsParent bool }] *)
#[local] Unset Elimination Schemes.
Inductive Node : Type :=
  mkNode { Char : Z; Freq : Z; Left : option Node; Right : option Node;
           IsParent : bool }.
#[local] Set Elimination Schemes.

(** [Nodes.Less]: [n[i].Freq < n[j].Freq], on the two elements. *)
Definition Less (a b : Node) : bool := Freq a <? Freq b.

(** [b] may stand after [a] in an ascending slice: [Less b a] is false. *)
Definition ascending (a b : Node) : Prop := Less b a = false.

(** ** The contract of [sort.Sort] *)

Class SortSpec (sort : list Node → list Node) : Prop := {
  sort_Permutation : ∀ l, sort l ≡ₚ l;
  sort_ascending : ∀ l, StronglySorted ascending (sort l)
}.

(** [insertionSort] of Go's [sort] package:
<<
    for i := a + 1; i < b; i++ {
        for j := i; j > a && data.Less(j, j-1); j-- { data.Swap(j, j-1) }
    }
>>
    [sift acc x] is the inner loop: [acc] is the part already sorted, last
    element first, and [x] moves down past every element it is [Less] than.
    [sort.Sort] runs exactly this on slices of at most 12 elements (Go 1.19
    and later) and of at most 6 elements (every release). *)
Fixpoint sift (acc : list Node) (x : Node) : list Node :=
  match acc with
  | y :: ys => if Less x y then y :: sift ys x else x :: y :: ys
  | [] => [x]
  end.

Definition insertionSort (l : list Node) : list Node :=
  reverse (foldl sift [] l).





(** ** BuildHuffmanTree *)

(** [&Node{Char: char, Freq: freq}] *)
Definition leaf (e : Z * Z) : Node := mkNode e.1 e.2 None None false.

(** [&Node{Freq: left.Freq + right.Freq, Left: left, Right: right, IsParent: true}] *)
Definition parent (l r : Node) : Node :=
  mkNode 0 (int_add (Freq l) (Freq r)) (Some l) (Some r) true.

Section Build.
Variable sort : list Node → list Node.

(** The loop [for len(nodes) > 1 { ... }]; [nodes] is sorted on entry. *)
Fixpoint merge_loop (fuel : nat) (nodes : list Node) : outcome (list Node) :=
  match nodes with
  | l :: r :: rest =>
      match fuel with
      | O => OutOfFuel
      | S fuel' => merge_loop fuel' (sort (rest ++ [parent l r]))
      end
  | _ => Ret nodes
  end.

(** [entries] is the sequence of [(char, freq)] pairs in the order
    [range frequencies] visits them. *)
Definition BuildHuffmanTree (entries : list (Z * Z)) : outcome Node :=
  let nodes := sort (leaf <$> entries) in
  match merge_loop (length nodes) nodes with
  | Ret (root :: _) => Ret root
  | Ret [] => Panic IndexOutOfRange
  | Panic p => Panic p
  | OutOfFuel => OutOfFuel
  end.
End Build.


(** [entries] is a possible visiting order of [range] over the map. *)
Definition ranges_over (frequencies : gmap Z Z) (entries : list (Z * Z)) : Prop :=
  entries ≡ₚ map_to_list frequencies.

(** The counting loop of [main]: [frequencies[char]++] for each character. *)
Definition count_frequencies (content : list Z) : gmap Z Z :=
  foldl (λ m char, <[char := int_add (default 0 (m !! char)) 1]> m) ∅ content.

(** ** BuildHuffmanCodes *)

Fixpoint BuildHuffmanCodes_node (root : Node) (code : list Z)
    (codes : gmap Z (list Z)) : gmap Z (list Z) :=
  match root with
  | mkNode char _ l r is_parent =>
      if negb is_parent then <[char := code]> codes
      else
        let codes1 :=
          match l with
          | Some l' => BuildHuffmanCodes_node l' (code ++ [rune_0]) codes
          | None => codes
          end in
        match r with
        | Some r' => BuildHuffmanCodes_node r' (code ++ [rune_1]) codes1
        | None => codes1
        end
  end.

(** The map argument is updated in place in Go; here the updated map is
    returned. *)
Definition BuildHuffmanCodes (root : option Node) (code : list Z)
    (codes : gmap Z (list Z)) : gmap Z (list Z) :=
  match root with
  | None => codes
  | Some n => BuildHuffmanCodes_node n code codes
  end.

(** ** Encoding *)

Inductive error : Type :=
| ReadError             (* "error reading the ... file" *)
| NoCode (char : Z)     (* "character '%c' has no associated Huffman code" *)
| WriteError.           (* "error writing the ... file" *)

(** The loop of [EncryptFile] over the characters of the content. *)
Fixpoint encrypt_loop (codes : gmap Z (list Z)) (encryptedContent : list Z)
    (content : list Z) : error + list Z :=
  match content with
  | [] => inr encryptedContent
  | char :: content' =>
      match codes !! char with
      | None => inl (NoCode char)
      | Some code => encrypt_loop codes (encryptedContent ++ code) content'
      end
  end.

Definition encrypt (codes : gmap Z (list Z)) (content : list Z) : error + list Z :=
  encrypt_loop codes [] content.

(** What the encoder is to produce: the codes of the characters, one after
    the other in stream order. *)
Definition code_concat (codes : gmap Z (list Z)) (content : list Z) : list Z :=
  content ≫= λ char, default [] (codes !! char).

(** ** Decoding *)

Definition child (bit : Z) (n : Node) : option Node :=
  if bit =? rune_0 then Left n else Right n.

(** [currentNode.Left == nil && currentNode.Right == nil] *)
Definition no_children (n : Node) : bool :=
  match Left n, Right n with
  | None, None => true
  | _, _ => false
  end.

(** The loop of [DecryptFile] over the bits of the content. *)
Fixpoint decrypt_loop (root currentNode : option Node)
    (decryptedContent : list Z) (content : list Z) : outcome (list Z) :=
  match content with
  | [] => Ret decryptedContent
  | bit :: content' =>
      match currentNode with
      | None => Panic NilDereference
      | Some cur =>
          match child bit cur with
          | None => Panic NilDereference
          | Some next =>
              if no_children next
              then decrypt_loop root root
                     (decryptedContent ++ string_of_rune (Char next)) content'
              else decrypt_loop root (Some next) decryptedContent content'
          end
      end
  end.

Definition decrypt (root : option Node) (content : list Z) : outcome (list Z) :=
  decrypt_loop root root [] content.

(** ** The files *)

(** The byte source and sink: named files, some of which cannot be written. *)
Record world : Type := mkWorld {
  files : gmap string (list Z);
  unwritable : gset string
}.

(** [ioutil.ReadFile] *)
Definition ReadFile (w : world) (name : string) : option (list Z) :=
  files w !! name.

(** [ioutil.WriteFile]: the file is created or fully overwritten. *)
Definition WriteFile (w : world) (name : string) (data : list Z) : option world :=
  if decide (name ∈ unwritable w) then None
  else Some (mkWorld (<[name := data]> (files w)) (unwritable w)).

(** [EncryptFile]: the world afterwards and the returned [error]
    ([None] is Go's [nil]). *)
Definition EncryptFile (inputFile outputFile : string)
    (codes : gmap Z (list Z)) (w : world) : world * option error :=
  match ReadFile w inputFile with
  | None => (w, Some ReadError)
  | Some content =>
      match encrypt codes content with
      | inl e => (w, Some e)
      | inr encryptedContent =>
          match WriteFile w outputFile encryptedContent with
          | None => (w, Some WriteError)
          | Some w' => (w', None)
          end
      end
  end.

(** [DecryptFile]: as above; a panic of the bit walk ends the program. *)
Definition DecryptFile (inputFile outputFile : string)
    (root : option Node) (w : world) : outcome (world * option error) :=
  match ReadFile w inputFile with
  | None => Ret (w, Some ReadError)
  | Some content =>
      match decrypt root content with
      | Ret decryptedContent =>
          match WriteFile w outputFile decryptedContent with
          | None => Ret (w, Some WriteError)
          | Some w' => Ret (w', None)
          end
      | Panic p => Panic p
      | OutOfFuel => OutOfFuel
      end
  end.

(** ** The methods of [Nodes] behind [sort.Sort] *)

(** [n[i]] for a Go index: out of range, negative included, is a panic. *)
Definition index (n : list Node) (i : Z) : option Node :=
  if 0 <=? i then n !! Z.to_nat i else None.

(** [func (n Nodes) Len() int] *)
Definition Nodes_Len (n : list Node) : Z := Z.of_nat (length n).


(** [func (n Nodes) Swap(i, j int) { n[i], n[j] = n[j], n[i] }]; the slice
    shares its array with the caller's, which sees the slice returned
    here. *)
Definition Nodes_Swap (n : list Node) (i j : Z) : outcome (list Node) :=
  match index n j, index n i with
  | Some b, Some a => Ret (<[Z.to_nat j := a]> (<[Z.to_nat i := b]> n))
  | _, _ => Panic IndexOutOfRange
  end.

(** ** PrintHuffmanTree *)

(** The output of [PrintHuffmanTree] is the sequence of its [Printf] calls
    ["Character: %c, Code: %s\n"], each given by its two arguments. *)
Fixpoint PrintHuffmanTree_node (root : Node) (code : list Z) : list (Z * list Z) :=
  match root with
  | mkNode char _ l r is_parent =>
      if negb is_parent then [(char, code)]
      else
        match l with
        | Some l' => PrintHuffmanTree_node l' (code ++ [rune_0])
        | None => []
        end ++
        match r with
        | Some r' => PrintHuffmanTree_node r' (code ++ [rune_1])
        | None => []
        end
  end.

Definition PrintHuffmanTree (root : option Node) (code : list Z) : list (Z * list Z) :=
  match root with
  | None => []
  | Some n => PrintHuffmanTree_node n code
  end.

(** [codes[char] = code] for each line, first line first. *)
Definition store_lines (codes : gmap Z (list Z)) (lines : list (Z * list Z)) :
    gmap Z (list Z) :=
  foldl (λ m line, <[line.1 := line.2]> m) codes lines.

(** A string over the two bit characters. *)
Definition bit_string (s : list Z) : Prop :=
  Forall (λ b, b = rune_0 ∨ b = rune_1) s.

(** What the walk of [DecryptFile] reads a character as: ['0'] is left, any
    other character is right, as ['1'] is. *)
Definition as_bit (b : Z) : Z := if b =? rune_0 then rune_0 else rune_1.

(** ** The two programs *)

(** What a program prints on standard output, call by call. *)
Inductive output : Type :=
| FrequencyLine (letter count : Z)     (* [Printf("%c: %d\n", ...)] *)
| CodesHeader                          (* [Println("Huffman Codes:")] *)
| CodeLine (char : Z) (code : list Z)  (* [Printf("Character: %c, Code: %s\n", ...)] *)
| EncryptedCreated                     (* ["Encrypted file created successfully!"] *)
| DecryptedCreated.                    (* ["Decrypted file created successfully!"] *)

(** How a program ends. *)
Inductive status : Type :=
| Exit0                       (* [main] returns *)
| FatalReading                (* [log.Fatalf("Error reading the file: %v", err)] *)
| FatalEncrypting (e : error) (* [log.Fatalf("Error encrypting the file: %v", err)] *)
| FatalDecrypting (e : error) (* [log.Fatalf("Error decrypting the file: %v", err)] *)
| Crash (p : panic)           (* a run-time panic *)
| Unfinished.                 (* the loop model ran out of fuel *)

Record run : Type := mkRun {
  printed : list output;
  after : world;
  exit : status
}.

(** What Go leaves open in one run of a program: the order in which each
    [range] visits its map, and the order [sort.Slice] gives to the letters
    (with [less] on the elements). *)
Record choices : Type := mkChoices {
  range_letters : gmap Z Z → list (Z * Z);
  slice_sort : (Z → Z → bool) → list Z → list Z;
  range_build : gmap Z Z → list (Z * Z);
  range_codes : gmap Z (list Z) → list (Z * list Z)
}.

Section Programs.
Variable sort : list Node → list Node.

(** The part the two [main]s share, from the counting loop to the printing
    of the codes. *)
Definition tables (ch : choices) (content : list Z) :
    list output * outcome (Node * gmap Z (list Z)) :=
  let frequencies := count_frequencies content in
  let freq letter := default 0 (frequencies !! letter) in
  let sortedLetters :=
    slice_sort ch (λ a b, freq b <? freq a) (range_letters ch frequencies).*1 in
  let out := (λ letter, FrequencyLine letter (freq letter)) <$> sortedLetters in
  match BuildHuffmanTree sort (range_build ch frequencies) with
  | Ret root =>
      let codes := BuildHuffmanCodes (Some root) [] ∅ in
      (out ++ CodesHeader :: ((λ kv, CodeLine kv.1 kv.2) <$> range_codes ch codes),
       Ret (root, codes))
  | Panic p => (out, Panic p)
  | OutOfFuel => (out, OutOfFuel)
  end.

(** [main] of [HuffEncrypt.go]. *)
Definition main_encrypt (ch : choices) (w : world) : run :=
  match ReadFile w "book.txt" with
  | None => mkRun [] w FatalReading
  | Some content =>
      match tables ch content with
      | (out, Ret (root, codes)) =>
          match EncryptFile "begin.txt" "encrypted.txt" codes w with
          | (w', Some e) => mkRun out w' (FatalEncrypting e)
          | (w', None) => mkRun (out ++ [EncryptedCreated]) w' Exit0
          end
      | (out, Panic p) => mkRun out w (Crash p)
      | (out, OutOfFuel) => mkRun out w Unfinished
      end
  end.

(** [main] of the decoding program. *)
Definition main_decrypt (ch : choices) (w : world) : run :=
  match ReadFile w "/home/alfredo/IME/DSA/trabHuff/book.txt" with
  | None => mkRun [] w FatalReading
  | Some content =>
      match tables ch content with
      | (out, Ret (root, codes)) =>
          match DecryptFile "encrypted.txt" "decrypted.txt" (Some root) w with
          | Ret (w', Some e) => mkRun out w' (FatalDecrypting e)
          | Ret (w', None) => mkRun (out ++ [DecryptedCreated]) w' Exit0
          | Panic p => mkRun out w (Crash p)
          | OutOfFuel => mkRun out w Unfinished
          end
      | (out, Panic p) => mkRun out w (Crash p)
      | (out, OutOfFuel) => mkRun out w Unfinished
      end
  end.
End Programs.

(** The visiting order a run takes for [BuildHuffmanTree] is one of the
    map's. *)
Definition fair (ch : choices) : Prop :=
  ∀ frequencies, ranges_over frequencies (range_build ch frequencies).

(** A run follows the contracts of [range] and of [sort.Slice]: each map is
    visited entry by entry, once each, and [sort.Slice] rearranges the slice
    so that no element is [less] than one before it (here for the [less] of
    [main], a comparison of counts). *)
Definition orderly (ch : choices) : Prop :=
  (∀ m, range_letters ch m ≡ₚ map_to_list m) ∧
  (∀ (f : Z → Z) l,
     slice_sort ch (λ a b, f b <? f a) l ≡ₚ l ∧
     StronglySorted (λ a b, f b ≤ f a) (slice_sort ch (λ a b, f b <? f a) l)) ∧
  (∀ m, range_codes ch m ≡ₚ map_to_list m).

(** ** What the claims observe of a tree *)

(** The characters at the leaves (nodes without children), left to right. *)
Fixpoint leaves (n : Node) : list Z :=
  match n with
  | mkNode char _ None None _ => [char]
  | mkNode _ _ l r _ =>
      match l with Some l' => leaves l' | None => [] end ++
      match r with Some r' => leaves r' | None => [] end
  end.

(** The number of internal nodes (nodes with a child). *)
Fixpoint internal_nodes (n : Node) : nat :=
  match n with
  | mkNode _ _ None None _ => 0
  | mkNode _ _ l r _ =>
      S (match l with Some l' => internal_nodes l' | None => 0 end +
         match r with Some r' => internal_nodes r' | None => 0 end)
  end.

(** Every internal node has two children and its weight is the [int] sum of
    theirs. *)
Fixpoint weights_ok (n : Node) : Prop :=
  match n with
  | mkNode _ _ None None _ => True
  | mkNode _ freq (Some l) (Some r) _ =>
      freq = int_add (Freq l) (Freq r) ∧ weights_ok l ∧ weights_ok r
  | _ => False
  end.

(** The same with the sum of the integers, no wrap-around. *)
Fixpoint weights_exact (n : Node) : Prop :=
  match n with
  | mkNode _ _ None None _ => True
  | mkNode _ freq (Some l) (Some r) _ =>
      freq = Freq l + Freq r ∧ weights_exact l ∧ weights_exact r
  | _ => False
  end.

(** The sum of a list of integers. *)
Definition sum_list_Z (l : list Z) : Z := foldr Z.add 0 l.

(** Trees as [BuildHuffmanTree] makes them: a leaf has no children and
    [IsParent] false, a parent has two children, [IsParent] true and the
    zero [Char]. *)
Inductive tree : Type :=
| Leaf (char freq : Z)
| Br (freq : Z) (l r : tree).

Fixpoint node_of (t : tree) : Node :=
  match t with
  | Leaf char freq => mkNode char freq None None false
  | Br freq l r => mkNode 0 freq (Some (node_of l)) (Some (node_of r)) true
  end.

Definition shaped (n : Node) : Prop := ∃ t, n = node_of t.

(** [path t p c]: the bits [p] lead from the root of [t] to the leaf of [c]. *)
Inductive path : tree → list Z → Z → Prop :=
| path_leaf c f : path (Leaf c f) [] c
| path_left f l r p c : path l p c → path (Br f l r) (rune_0 :: p) c
| path_right f l r p c : path r p c → path (Br f l r) (rune_1 :: p) c.

(** [reach t q t']: the bits [q] lead from the root of [t] to the subtree
    [t']. *)
Inductive reach : tree → list Z → tree → Prop :=
| reach_here t : reach t [] t
| reach_left f l r q t' : reach l q t' → reach (Br f l r) (rune_0 :: q) t'
| reach_right f l r q t' : reach r q t' → reach (Br f l r) (rune_1 :: q) t'.

(** ** The cost of a code tree *)

(** The weighted path length of a tree, read off the nodes: the sum over the
    leaves of the leaf's [Freq] times its depth; for the tree of a text it
    is the number of bits of the encoded text. *)
Fixpoint path_length_from (depth : Z) (n : Node) : Z :=
  match n with
  | mkNode _ freq None None _ => depth * freq
  | mkNode _ _ l r _ =>
      match l with Some l' => path_length_from (depth + 1) l' | None => 0 end +
      match r with Some r' => path_length_from (depth + 1) r' | None => 0 end
  end.

Definition weighted_path_length (n : Node) : Z := path_length_from 0 n.

(** The same on well-shaped trees, with the sum of the leaf weights below a
    node in place of its [Freq]. *)
Fixpoint weight (t : tree) : Z :=
  match t with
  | Leaf _ f => f
  | Br _ l r => weight l + weight r
  end.

Fixpoint cost (t : tree) : Z :=
  match t with
  | Leaf _ _ => 0
  | Br _ l r => cost l + cost r + weight l + weight r
  end.

Fixpoint height (t : tree) : Z :=
  match t with
  | Leaf _ _ => 0
  | Br _ l r => 1 + Z.max (height l) (height r)
  end.

(** The leaves of a tree with their weights, and the weights alone. *)
Fixpoint leaf_entries (t : tree) : list (Z * Z) :=
  match t with
  | Leaf c f => [(c, f)]
  | Br _ l r => leaf_entries l ++ leaf_entries r
  end.

Definition freqs (t : tree) : list Z := (leaf_entries t).*2.

(** Leaf weights are not negative and every [Freq] is the sum of the leaf
    weights below: no addition has wrapped around. *)
Fixpoint exact (t : tree) : Prop :=
  match t with
  | Leaf _ f => 0 ≤ f
  | Br f l r => f = weight l + weight r ∧ exact l ∧ exact r
  end.

(** Two leaves of weights [x] and [y] at the greatest depth of [t] can be
    merged into one leaf of any weight [z], one level up; [M] is the rest of
    the leaf weights. *)
Definition collapsible (t : tree) (x y : Z) (M : list Z) : Prop :=
  freqs t ≡ₚ x :: y :: M ∧
  ∀ z, ∃ t', freqs t' ≡ₚ z :: M ∧
    cost t' = cost t - (x + y) * height t + z * (height t - 1) ∧
    height t' ≤ height t.

(** The sum over a table of [count * g char]. *)
Definition table_sum (g : Z → Z) (l : list (Z * Z)) : Z :=
  sum_list_Z ((λ e, e.2 * g e.1) <$> l).

(** The number of bits of the code of a character, zero without a code. *)
Definition code_length (codes : gmap Z (list Z)) (c : Z) : Z :=
  Z.of_nat (length (default [] (codes !! c))).

(** The tree with the weight of each leaf taken from a table. *)
Fixpoint relabel (m : gmap Z Z) (t : tree) : tree :=
  match t with
  | Leaf c _ => Leaf c (default 0 (m !! c))
  | Br f l r => Br f (relabel m l) (relabel m r)
  end.

(** The number of occurrences of a character in a text. *)
Definition occurrences (c : Z) (text : list Z) : Z :=
  Z.of_nat (length (filter (λ x, x = c) text)).

(** ** Invariants of the working collection of [BuildHuffmanTree] *)

(** The nodes are well-shaped trees. *)
Definition inv_shape (nodes : list Node) : Prop := Forall shaped nodes.

(** The leaves of the collection are the characters [chars]. *)
Definition inv_leaves (chars : list Z) (nodes : list Node) : Prop :=
  nodes ≫= leaves ≡ₚ chars.

(** Internal nodes plus roots stay [n] in number. *)
Definition inv_count (n : nat) (nodes : list Node) : Prop :=
  (sum_list_with internal_nodes nodes + length nodes = n)%nat.

(** Weights add up inside every tree, are [int]s, and their [int] sum stays
    [total]. *)
Definition inv_weight (total : Z) (nodes : list Node) : Prop :=
  Forall weights_ok nodes ∧ Forall (λ n, is_int (Freq n)) nodes ∧
  wrap (sum_list_Z (Freq <$> nodes)) = total.

(** Without overflow: weights are not negative, add up exactly, and their
    sum stays [total], which fits an [int]. *)
Definition inv_exact (total : Z) (nodes : list Node) : Prop :=
  total ≤ int_max ∧ Forall (λ n, 0 ≤ Freq n) nodes ∧
  Forall weights_exact nodes ∧ sum_list_Z (Freq <$> nodes) = total.

(** * Properties *)

(** ** Machine integers *)

Lemma wrap_is_int z : is_int (wrap z).
Proof.
  unfold is_int, wrap, int_min, int_max, int_bits.
  pose proof (Z.mod_pos_bound (z - - 2 ^ (64 - 1)) (2 ^ 64)). lia.
Qed.

Lemma wrap_id z : is_int z → wrap z = z.
Proof.
  unfold is_int, wrap, int_min, int_max, int_bits. intros H.
  rewrite Z.mod_small; lia.
Qed.

Lemma wrap_add_l a b : wrap (wrap a + b) = wrap (a + b).
Proof.
  unfold wrap.
  replace ((a - int_min) mod 2 ^ int_bits + int_min + b - int_min)
    with ((a - int_min) mod 2 ^ int_bits + b) by lia.
  replace (a + b - int_min) with ((a - int_min) + b) by lia.
  by rewrite Zplus_mod_idemp_l.
Qed.

Lemma wrap_add_r a b : wrap (a + wrap b) = wrap (a + b).
Proof. by rewrite (Z.add_comm a), wrap_add_l, (Z.add_comm b). Qed.

(** ** The sorting routines meet the contract *)

Lemma ascending_le a b : ascending a b ↔ Freq a ≤ Freq b.
Proof. unfold ascending, Less. rewrite Z.ltb_ge. done. Qed.

Global Instance ascending_trans : Transitive ascending.
Proof. intros a b c. rewrite !ascending_le. lia. Qed.

Global Instance ascending_dec a b : Decision (ascending a b).
Proof. unfold ascending. apply _. Defined.

Lemma sift_Permutation acc x : sift acc x ≡ₚ x :: acc.
Proof.
  induction acc as [|y ys IH]; simpl; [done|].
  destruct (Less x y); [|done]. rewrite IH. apply Permutation_swap.
Qed.

Lemma foldl_sift_Permutation l acc : foldl sift acc l ≡ₚ acc ++ l.
Proof.
  revert acc. induction l as [|x l IH]; intros acc; simpl.
  - by rewrite app_nil_r.
  - rewrite IH, sift_Permutation. simpl. apply Permutation_middle.
Qed.

Lemma sift_HdRel acc x z :
  ascending x z → HdRel (flip ascending) z acc →
  HdRel (flip ascending) z (sift acc x).
Proof.
  intros Hxz Hd. destruct acc as [|y ys]; simpl.
  - by constructor.
  - destruct (Less x y); constructor; [by inversion Hd | done].
Qed.

Lemma sift_Sorted acc x :
  Sorted (flip ascending) acc → Sorted (flip ascending) (sift acc x).
Proof.
  induction 1 as [|y ys Hs IH Hd]; simpl.
  - repeat constructor.
  - destruct (Less x y) eqn:E.
    + constructor; [done|]. apply sift_HdRel; [|done].
      apply ascending_le. unfold Less in E. apply Z.ltb_lt in E. lia.
    + constructor; [by constructor|]. by constructor.
Qed.

Lemma foldl_sift_Sorted l acc :
  Sorted (flip ascending) acc → Sorted (flip ascending) (foldl sift acc l).
Proof.
  revert acc. induction l as [|x l IH]; intros acc Hd; simpl; [done|].
  apply IH, sift_Sorted, Hd.
Qed.

Lemma insertionSort_Permutation l : insertionSort l ≡ₚ l.
Proof.
  unfold insertionSort. by rewrite reverse_Permutation, foldl_sift_Permutation.
Qed.

Lemma insertionSort_ascending l : StronglySorted ascending (insertionSort l).
Proof.
  apply Sorted_StronglySorted; [apply _|].
  unfold insertionSort.
  apply (Sorted_reverse (flip ascending)), foldl_sift_Sorted. constructor.
Qed.

Global Instance insertionSort_spec : SortSpec insertionSort.
Proof.
  split; [apply insertionSort_Permutation | apply insertionSort_ascending].
Qed.

Lemma insert_swap_Permutation {A} (l : list A) (j : nat) x y :
  l !! j = Some y → y :: <[j := x]> l ≡ₚ x :: l.
Proof.
  intros Hj.
  rewrite <- (take_drop_middle l j y Hj) at 2.
  rewrite insert_take_drop by (by eapply lookup_lt_Some).
  rewrite !Permutation_middle. f_equiv. apply Permutation_swap.
Qed.

Lemma swap_Permutation {A} (l : list A) (i j : nat) x y :
  l !! i = Some x → l !! j = Some y → <[i := y]> (<[j := x]> l) ≡ₚ l.
Proof.
  revert i j. induction l as [|a l IH]; intros i j Hi Hj; [done|].
  destruct i as [|i], j as [|j]; simpl in *.
  - by simplify_eq.
  - simplify_eq. by apply insert_swap_Permutation.
  - simplify_eq. by apply insert_swap_Permutation.
  - f_equiv. by apply IH.
Qed.




(** ** The merge loop *)

Section Loop.
Context (sort : list Node → list Node) `{!SortSpec sort}.

Lemma sort_length l : length (sort l) = length l.
Proof. by rewrite sort_Permutation. Qed.

Lemma sort_nil : sort [] = [].
Proof. apply Permutation_nil_r, sort_Permutation. Qed.

(** A Hoare rule for the loop: a property of the working collection that
    does not depend on its order and survives one merge holds of the
    single node the loop ends with; and the fuel suffices. *)
Lemma merge_loop_rule (I : list Node → Prop) :
  (∀ l l', l ≡ₚ l' → I l → I l') →
  (∀ a b rest, I (a :: b :: rest) → I (rest ++ [parent a b])) →
  ∀ fuel nodes, (length nodes ≤ S fuel)%nat → nodes ≠ [] → I nodes →
  ∃ root, merge_loop sort fuel nodes = Ret [root] ∧ I [root].
Proof.
  intros Hperm Hstep fuel.
  induction fuel as [|fuel IH]; intros nodes Hlen Hne HI.
  - destruct nodes as [|a [|b rest]]; simpl in *; [done| |lia]. eauto.
  - destruct nodes as [|a [|b rest]]; [done| |]; simpl.
    + eauto.
    + apply IH.
      * rewrite sort_length, length_app. simpl in *. lia.
      * intros E. apply (f_equal length) in E.
        rewrite sort_length, length_app in E. simpl in E. lia.
      * eapply Hperm; [symmetry; apply sort_Permutation|]. by apply Hstep.
Qed.

Lemma BuildHuffmanTree_rule (I : list Node → Prop) :
  (∀ l l', l ≡ₚ l' → I l → I l') →
  (∀ a b rest, I (a :: b :: rest) → I (rest ++ [parent a b])) →
  ∀ entries, entries ≠ [] → I (leaf <$> entries) →
  ∃ root, BuildHuffmanTree sort entries = Ret root ∧ I [root].
Proof.
  intros Hperm Hstep entries Hne HI. unfold BuildHuffmanTree.
  destruct (merge_loop_rule I Hperm Hstep
              (length (sort (leaf <$> entries))) (sort (leaf <$> entries)))
    as (root & -> & Hroot).
  - lia.
  - intros E. apply (f_equal length) in E.
    rewrite sort_length, length_fmap in E. by destruct entries.
  - eapply Hperm; [symmetry; apply sort_Permutation|done].
  - eauto.
Qed.

Lemma BuildHuffmanTree_nil : BuildHuffmanTree sort [] = Panic IndexOutOfRange.
Proof. unfold BuildHuffmanTree. simpl. by rewrite sort_nil. Qed.
End Loop.

(** ** Invariants of the working collection *)

Lemma leaves_parent a b : leaves (parent a b) = leaves a ++ leaves b.
Proof. done. Qed.

Lemma internal_nodes_parent a b :
  internal_nodes (parent a b) = S (internal_nodes a + internal_nodes b).
Proof. done. Qed.

Lemma shaped_leaf e : shaped (leaf e).
Proof. by exists (Leaf e.1 e.2). Qed.

Lemma shaped_parent a b : shaped a → shaped b → shaped (parent a b).
Proof.
  intros [ta ->] [tb ->]. by exists (Br (int_add (Freq (node_of ta)) (Freq (node_of tb))) ta tb).
Qed.

Lemma inv_shape_perm l l' : l ≡ₚ l' → inv_shape l → inv_shape l'.
Proof. unfold inv_shape. by intros ->. Qed.

Lemma inv_shape_step a b rest :
  inv_shape (a :: b :: rest) → inv_shape (rest ++ [parent a b]).
Proof.
  unfold inv_shape. rewrite !Forall_cons, Forall_app, Forall_singleton.
  intros (Ha & Hb & Hr). split; [done|]. by apply shaped_parent.
Qed.

Lemma inv_leaves_perm chars l l' :
  l ≡ₚ l' → inv_leaves chars l → inv_leaves chars l'.
Proof. unfold inv_leaves. by intros ->. Qed.

Lemma inv_leaves_step chars a b rest :
  inv_leaves chars (a :: b :: rest) → inv_leaves chars (rest ++ [parent a b]).
Proof.
  unfold inv_leaves. rewrite bind_app, bind_singleton, !bind_cons.
  rewrite leaves_parent. intros <-.
  by rewrite (Permutation_app_comm (rest ≫= leaves)), app_assoc.
Qed.

Lemma inv_count_perm n l l' : l ≡ₚ l' → inv_count n l → inv_count n l'.
Proof. unfold inv_count. by intros ->. Qed.

Lemma inv_count_step n a b rest :
  inv_count n (a :: b :: rest) → inv_count n (rest ++ [parent a b]).
Proof.
  unfold inv_count. rewrite sum_list_with_app, length_app. simpl.
  lia.
Qed.

Lemma sum_list_Z_app l k : sum_list_Z (l ++ k) = sum_list_Z l + sum_list_Z k.
Proof. unfold sum_list_Z. induction l as [|x l IH]; simpl; lia. Qed.

Lemma sum_list_Z_cons x l : sum_list_Z (x :: l) = x + sum_list_Z l.
Proof. done. Qed.

Lemma sum_list_Z_perm l k : l ≡ₚ k → sum_list_Z l = sum_list_Z k.
Proof. unfold sum_list_Z. induction 1; simpl; lia. Qed.

Lemma inv_weight_perm total l l' :
  l ≡ₚ l' → inv_weight total l → inv_weight total l'.
Proof.
  unfold inv_weight. intros Hp (H1 & H2 & H3). split_and!.
  - by rewrite <- Hp.
  - by rewrite <- Hp.
  - by rewrite <- (sum_list_Z_perm _ _ (fmap_Permutation Freq _ _ Hp)).
Qed.

Lemma inv_weight_step total a b rest :
  inv_weight total (a :: b :: rest) → inv_weight total (rest ++ [parent a b]).
Proof.
  unfold inv_weight. rewrite !Forall_cons, !Forall_app, !Forall_singleton.
  intros ((Ha & Hb & Hr) & (Ia & Ib & Ir) & Hsum). split_and!; try done.
  - apply wrap_is_int.
  - rewrite <- Hsum, fmap_app, !fmap_cons, sum_list_Z_app, !sum_list_Z_cons.
    change (Freq (parent a b)) with (int_add (Freq a) (Freq b)).
    unfold int_add. rewrite Z.add_0_r, wrap_add_r. f_equal. lia.
Qed.

Lemma leaves_of_entries (entries : list (Z * Z)) :
  (leaf <$> entries) ≫= leaves = entries.*1.
Proof. induction entries as [|e es IH]; csimpl; [done|]. by rewrite IH. Qed.

Lemma internal_of_entries (entries : list (Z * Z)) :
  sum_list_with internal_nodes (leaf <$> entries) = 0%nat.
Proof. induction entries as [|e es IH]; [done|]. by rewrite fmap_cons. Qed.

Lemma weights_of_entries (entries : list (Z * Z)) :
  Forall weights_ok (leaf <$> entries).
Proof. apply Forall_fmap, Forall_forall. by intros. Qed.

Lemma freqs_of_entries (entries : list (Z * Z)) :
  Freq <$> (leaf <$> entries) = entries.*2.
Proof. rewrite <- list_fmap_compose. done. Qed.

Lemma ranges_over_length frequencies entries :
  ranges_over frequencies entries → length entries = size frequencies.
Proof. unfold ranges_over. intros ->. by rewrite length_map_to_list. Qed.

Lemma ranges_over_NoDup frequencies entries :
  ranges_over frequencies entries → NoDup entries.*1.
Proof. unfold ranges_over. intros ->. apply NoDup_fst_map_to_list. Qed.

Lemma ranges_over_elem_of frequencies entries c :
  ranges_over frequencies entries →
  c ∈ entries.*1 ↔ is_Some (frequencies !! c).
Proof.
  unfold ranges_over. intros ->. rewrite list_elem_of_fmap. split.
  - intros ([k v] & -> & H). apply elem_of_map_to_list in H. by exists v.
  - intros [v H]. exists (c, v). split; [done|]. by apply elem_of_map_to_list.
Qed.

(** ** Claims about the tree *)

(** C4, as the code has it: [BuildHuffmanTree] returns a root for every table
    with at least one entry; it has no error result, and on the empty table
    the final [nodes[0]] panics with an index out of range. *)
Theorem C4_root_or_panic sort (entries : list (Z * Z)) :
  SortSpec sort →
  (entries ≠ [] → ∃ root, BuildHuffmanTree sort entries = Ret root) ∧
  (entries = [] → BuildHuffmanTree sort entries = Panic IndexOutOfRange).
Proof.
  intros Hs. split.
  - intros Hne.
    destruct (BuildHuffmanTree_rule sort (λ _, True)) with (entries := entries)
      as (root & Hroot & _); eauto.
  - intros ->. by apply BuildHuffmanTree_nil.
Qed.

(** C4 at the table [{a: 3, b: 2, c: 1}] and the insertion sort. *)
Lemma C4_root_or_panic_witness :
  SortSpec insertionSort ∧
  (([(97, 3); (98, 2); (99, 1)] : list (Z * Z)) ≠ [] →
     ∃ root, BuildHuffmanTree insertionSort [(97, 3); (98, 2); (99, 1)] = Ret root) ∧
  (([(97, 3); (98, 2); (99, 1)] : list (Z * Z)) = [] →
     BuildHuffmanTree insertionSort [(97, 3); (98, 2); (99, 1)]
     = Panic IndexOutOfRange).
Proof.
  split; [apply insertionSort_spec|].
  apply (C4_root_or_panic insertionSort [(97, 3); (98, 2); (99, 1)]).
  apply insertionSort_spec.
Defined.

(** C4 as the specification states it fails: the empty frequency table makes
    [BuildHuffmanTree] panic; no construction error is signalled. *)
Lemma C4_empty_table_panics :
  BuildHuffmanTree insertionSort (map_to_list (∅ : gmap Z Z))
  = Panic IndexOutOfRange.
Proof. by rewrite map_to_list_empty. Qed.

(** C9: a table with [n ≥ 1] distinct characters gives a tree with exactly
    [n] leaves, one for each character of the table, and [n - 1] internal
    nodes. *)
Theorem C9_leaf_count sort (frequencies : gmap Z Z) (entries : list (Z * Z)) :
  SortSpec sort →
  ranges_over frequencies entries →
  (1 ≤ size frequencies)%nat →
  ∃ root, BuildHuffmanTree sort entries = Ret root ∧
    length (leaves root) = size frequencies ∧
    NoDup (leaves root) ∧
    (∀ c, c ∈ leaves root ↔ is_Some (frequencies !! c)) ∧
    internal_nodes root = (size frequencies - 1)%nat.
Proof.
  intros Hs Hr Hn.
  pose proof (ranges_over_length _ _ Hr) as Hlen.
  destruct (BuildHuffmanTree_rule sort
    (λ nodes, inv_leaves entries.*1 nodes ∧ inv_count (length entries) nodes))
    with (entries := entries) as (root & Hroot & Hl & Hc).
  - intros l l' Hp [H1 H2].
    split; [by eapply inv_leaves_perm | by eapply inv_count_perm].
  - intros a b rest [H1 H2].
    split; [by apply inv_leaves_step | by apply inv_count_step].
  - intros ->. simpl in Hlen. lia.
  - split.
    + unfold inv_leaves. by rewrite leaves_of_entries.
    + unfold inv_count. rewrite internal_of_entries, length_fmap. done.
  - exists root. split; [done|].
    unfold inv_leaves in Hl. rewrite bind_singleton in Hl.
    unfold inv_count in Hc. simpl in Hc.
    split_and!.
    + by rewrite Hl, length_fmap.
    + rewrite Hl. by eapply ranges_over_NoDup.
    + intros c. rewrite Hl. by apply ranges_over_elem_of.
    + lia.
Qed.

(** C9 at the table [{a: 3, b: 2, c: 1}]. *)
Lemma C9_leaf_count_witness :
  let frequencies : gmap Z Z := {[ 97 := 3; 98 := 2; 99 := 1 ]} in
  SortSpec insertionSort ∧
  ranges_over frequencies (map_to_list frequencies) ∧
  (1 ≤ size frequencies)%nat ∧
  ∃ root, BuildHuffmanTree insertionSort (map_to_list frequencies) = Ret root ∧
    length (leaves root) = size frequencies ∧
    NoDup (leaves root) ∧
    (∀ c, c ∈ leaves root ↔ is_Some (frequencies !! c)) ∧
    internal_nodes root = (size frequencies - 1)%nat.
Proof.
  intros frequencies.
  assert (H1 : ranges_over frequencies (map_to_list frequencies))
    by (unfold ranges_over; reflexivity).
  assert (H2 : (1 ≤ size frequencies)%nat) by (vm_compute; lia).
  split; [apply insertionSort_spec|].
  split; [exact H1|]. split; [exact H2|].
  exact (C9_leaf_count insertionSort frequencies (map_to_list frequencies)
           insertionSort_spec H1 H2).
Defined.

Lemma inv_exact_perm total l l' :
  l ≡ₚ l' → inv_exact total l → inv_exact total l'.
Proof.
  unfold inv_exact. intros Hp (H0 & H1 & H2 & H3). split_and!.
  - done.
  - by rewrite <- Hp.
  - by rewrite <- Hp.
  - by rewrite <- (sum_list_Z_perm _ _ (fmap_Permutation Freq _ _ Hp)).
Qed.

Lemma sum_list_Z_nonneg l : Forall (λ z, 0 ≤ z) l → 0 ≤ sum_list_Z l.
Proof. induction 1; [done|]. rewrite sum_list_Z_cons. lia. Qed.

Lemma inv_exact_step total a b rest :
  inv_exact total (a :: b :: rest) → inv_exact total (rest ++ [parent a b]).
Proof.
  unfold inv_exact. rewrite !Forall_cons, !Forall_app, !Forall_singleton.
  rewrite fmap_app, !fmap_cons, sum_list_Z_app, !sum_list_Z_cons.
  intros (Hmax & (Pa & Pb & Pr) & (Ha & Hb & Hr) & Hsum).
  assert (0 ≤ sum_list_Z (Freq <$> rest)) as Hrest.
  { apply sum_list_Z_nonneg. by apply Forall_fmap. }
  assert (Freq (parent a b) = Freq a + Freq b) as Hp.
  { change (Freq (parent a b)) with (int_add (Freq a) (Freq b)).
    apply wrap_id. unfold is_int, int_min, int_max, int_bits in *. lia. }
  split_and!; try done.
  - lia.
  - rewrite Hp. change (sum_list_Z (Freq <$> [])) with 0. lia.
Qed.

(** C8: in the tree [BuildHuffmanTree] returns every internal node's weight
    is the ([int]) sum of its two children's weights, and the root's weight
    is the ([int]) sum of all frequencies of the table; when the frequencies
    are counts (not negative) whose total fits an [int], these are the sums
    of the integers. *)
Theorem C8_weight_invariant sort (entries : list (Z * Z)) :
  SortSpec sort →
  entries ≠ [] →
  Forall (λ e, is_int e.2) entries →
  ∃ root, BuildHuffmanTree sort entries = Ret root ∧
    weights_ok root ∧
    Freq root = wrap (sum_list_Z entries.*2) ∧
    (Forall (λ e, 0 ≤ e.2) entries → sum_list_Z entries.*2 ≤ int_max →
       weights_exact root ∧ Freq root = sum_list_Z entries.*2).
Proof.
  intros Hs Hne Hint.
  set (total := sum_list_Z entries.*2).
  destruct (BuildHuffmanTree_rule sort
    (λ nodes, inv_weight (wrap total) nodes ∧
       (Forall (λ e, 0 ≤ e.2) entries → total ≤ int_max → inv_exact total nodes)))
    with (entries := entries) as (root & Hroot & (Hw & Hi & Hsum) & Hex).
  - intros l l' Hp [H1 H2]. split; [by eapply inv_weight_perm|].
    intros ??. eapply inv_exact_perm; eauto.
  - intros a b rest [H1 H2]. split; [by apply inv_weight_step|].
    intros ??. apply inv_exact_step; eauto.
  - done.
  - split.
    + split_and!.
      * apply weights_of_entries.
      * apply Forall_fmap. by eapply Forall_impl.
      * by rewrite freqs_of_entries.
    + intros Hpos Hmax. split_and!; [done| | |by rewrite freqs_of_entries].
      * apply Forall_fmap. by eapply Forall_impl.
      * apply Forall_fmap, Forall_forall. by intros.
  - exists root. split; [done|].
    rewrite Forall_singleton in Hw, Hi.
    change (Freq <$> [root]) with [Freq root] in Hsum.
    unfold sum_list_Z at 1 in Hsum. simpl in Hsum.
    rewrite Z.add_0_r, (wrap_id _ Hi) in Hsum.
    split_and!; [done..|].
    intros Hpos Hmax. destruct (Hex Hpos Hmax) as (_ & _ & Hwe & Hs').
    rewrite Forall_singleton in Hwe. split; [done|].
    change (Freq <$> [root]) with [Freq root] in Hs'.
    unfold sum_list_Z at 1 in Hs'. simpl in Hs'. lia.
Qed.

(** C8 at the table [{a: 3, b: 2, c: 1}]. *)
Lemma C8_weight_invariant_witness :
  let entries : list (Z * Z) := [(97, 3); (98, 2); (99, 1)] in
  SortSpec insertionSort ∧ entries ≠ [] ∧ Forall (λ e, is_int e.2) entries ∧
  ∃ root, BuildHuffmanTree insertionSort entries = Ret root ∧
    weights_ok root ∧
    Freq root = wrap (sum_list_Z entries.*2) ∧
    (Forall (λ e, 0 ≤ e.2) entries → sum_list_Z entries.*2 ≤ int_max →
       weights_exact root ∧ Freq root = sum_list_Z entries.*2).
Proof.
  intros entries.
  assert (H1 : entries ≠ []) by done.
  assert (H2 : Forall (λ e, is_int e.2) entries).
  { repeat constructor; vm_compute; discriminate. }
  split; [apply insertionSort_spec|]. split; [exact H1|]. split; [exact H2|].
  exact (C8_weight_invariant insertionSort entries insertionSort_spec H1 H2).
Defined.

(** ** The tree that is built *)

Lemma leaves_Br f l r :
  leaves (node_of (Br f l r)) = leaves (node_of l) ++ leaves (node_of r).
Proof. done. Qed.

Lemma no_children_node_of t :
  no_children (node_of t) = match t with Leaf _ _ => true | Br _ _ _ => false end.
Proof. by destruct t. Qed.

(** [BuildHuffmanTree] returns a well-shaped tree over the characters of the
    table. *)
Lemma BuildHuffmanTree_tree sort (frequencies : gmap Z Z) entries :
  SortSpec sort → ranges_over frequencies entries →
  (1 ≤ size frequencies)%nat →
  ∃ t, BuildHuffmanTree sort entries = Ret (node_of t) ∧
    NoDup (leaves (node_of t)) ∧
    ∀ c, c ∈ leaves (node_of t) ↔ is_Some (frequencies !! c).
Proof.
  intros Hs Hr Hn.
  pose proof (ranges_over_length _ _ Hr) as Hlen.
  destruct (BuildHuffmanTree_rule sort
    (λ nodes, inv_leaves entries.*1 nodes ∧ inv_shape nodes))
    with (entries := entries) as (root & Hroot & Hl & Hsh).
  - intros l l' Hp [H1 H2].
    split; [by eapply inv_leaves_perm | by eapply inv_shape_perm].
  - intros a b rest [H1 H2].
    split; [by apply inv_leaves_step | by apply inv_shape_step].
  - intros ->. simpl in Hlen. lia.
  - split.
    + unfold inv_leaves. by rewrite leaves_of_entries.
    + apply Forall_fmap, Forall_forall. intros e _. apply shaped_leaf.
  - unfold inv_shape in Hsh. rewrite Forall_singleton in Hsh.
    destruct Hsh as [t ->]. exists t. split; [done|].
    unfold inv_leaves in Hl. rewrite bind_singleton in Hl. split.
    + rewrite Hl. by eapply ranges_over_NoDup.
    + intros c. rewrite Hl. by apply ranges_over_elem_of.
Qed.

(** ** Codes are the paths of the tree *)

Lemma path_leaves t c : c ∈ leaves (node_of t) ↔ ∃ p, path t p c.
Proof.
  induction t as [c' f'|f l IHl r IHr].
  - simpl. rewrite list_elem_of_singleton. split.
    + intros ->. eexists. constructor.
    + intros [p H]. by inversion H.
  - rewrite leaves_Br, elem_of_app, IHl, IHr. split.
    + intros [[p H]|[p H]]; eexists; [by apply path_left | by apply path_right].
    + intros [p H]. inversion H; subst; eauto.
Qed.

Lemma path_nil_inv t c : path t [] c → ∃ f, t = Leaf c f.
Proof. inversion 1. eauto. Qed.

Lemma path_Leaf_inv c' f p c : path (Leaf c' f) p c → p = [] ∧ c = c'.
Proof. by inversion 1. Qed.

(** No path is a prefix of the path of another character. *)
Lemma path_prefix t p1 c1 p2 c2 :
  path t p1 c1 → path t p2 c2 → p1 `prefix_of` p2 → c1 = c2.
Proof.
  intros H1. revert p2. induction H1 as [c f|f l r p c H IH|f l r p c H IH];
    intros p2 H2 Hpre.
  - by inversion H2.
  - inversion H2; subst.
    + eapply IH; [done|]. by eapply prefix_cons_inv_2.
    + apply prefix_cons_inv_1 in Hpre. done.
  - inversion H2; subst.
    + apply prefix_cons_inv_1 in Hpre. done.
    + eapply IH; [done|]. by eapply prefix_cons_inv_2.
Qed.

Lemma codes_node_other t code codes c :
  c ∉ leaves (node_of t) →
  BuildHuffmanCodes_node (node_of t) code codes !! c = codes !! c.
Proof.
  revert code codes. induction t as [c' f'|f l IHl r IHr]; intros code codes Hc.
  - simpl in *. rewrite list_elem_of_singleton in Hc.
    by rewrite lookup_insert_ne.
  - rewrite leaves_Br, elem_of_app in Hc. simpl.
    rewrite IHr, IHl; tauto.
Qed.

Lemma codes_node_path t code codes p c :
  NoDup (leaves (node_of t)) → path t p c →
  BuildHuffmanCodes_node (node_of t) code codes !! c = Some (code ++ p).
Proof.
  intros Hnd Hp. revert code codes Hnd.
  induction Hp as [c f|f l r p c H IH|f l r p c H IH]; intros code codes Hnd.
  - simpl. by rewrite lookup_insert_eq, app_nil_r.
  - rewrite leaves_Br in Hnd. apply NoDup_app in Hnd as (Hl & Hlr & Hr).
    simpl. rewrite codes_node_other.
    + rewrite IH by done. by rewrite <- app_assoc.
    + apply Hlr, path_leaves. eauto.
  - rewrite leaves_Br in Hnd. apply NoDup_app in Hnd as (Hl & Hlr & Hr).
    simpl. rewrite IH by done. by rewrite <- app_assoc.
Qed.

(** The code book of a well-shaped tree with distinct leaves: the code of a
    character is its path. *)
Lemma codes_path t c w :
  NoDup (leaves (node_of t)) →
  BuildHuffmanCodes (Some (node_of t)) [] ∅ !! c = Some w ↔ path t w c.
Proof.
  intros Hnd. simpl. split.
  - intros Hw. destruct (decide (c ∈ leaves (node_of t))) as [Hc|Hc].
    + apply path_leaves in Hc as [p Hp].
      rewrite (codes_node_path _ _ _ _ _ Hnd Hp) in Hw. by simplify_eq.
    + rewrite codes_node_other in Hw by done. by rewrite lookup_empty in Hw.
  - intros Hp. by rewrite (codes_node_path _ _ _ _ _ Hnd Hp).
Qed.

(** C7: in the code book of a tree built from a non-empty table the
    characters with a code are exactly the characters of the table, each with
    one code, and no character's code is a prefix of another character's
    code. *)
Theorem C7_prefix_free sort (frequencies : gmap Z Z) (entries : list (Z * Z)) :
  SortSpec sort →
  ranges_over frequencies entries →
  (1 ≤ size frequencies)%nat →
  ∃ root, BuildHuffmanTree sort entries = Ret root ∧
    let codes := BuildHuffmanCodes (Some root) [] ∅ in
    (∀ c, is_Some (codes !! c) ↔ is_Some (frequencies !! c)) ∧
    (∀ c1 c2 w1 w2, codes !! c1 = Some w1 → codes !! c2 = Some w2 →
       c1 ≠ c2 → ¬ w1 `prefix_of` w2).
Proof.
  intros Hs Hr Hn.
  destruct (BuildHuffmanTree_tree sort frequencies entries Hs Hr Hn)
    as (t & Hroot & Hnd & Hdom).
  exists (node_of t). split; [done|]. intros codes. split.
  - intros c. rewrite <- Hdom, path_leaves.
    split; intros [w Hw]; exists w; by apply (codes_path t c w Hnd).
  - intros c1 c2 w1 w2 H1 H2 Hne Hpre.
    apply (codes_path _ _ _ Hnd) in H1, H2.
    apply Hne. by eapply path_prefix.
Qed.

(** C7 at the table [{a: 3, b: 2, c: 1}]. *)
Lemma C7_prefix_free_witness :
  let frequencies : gmap Z Z := {[ 97 := 3; 98 := 2; 99 := 1 ]} in
  SortSpec insertionSort ∧
  ranges_over frequencies (map_to_list frequencies) ∧
  (1 ≤ size frequencies)%nat ∧
  ∃ root, BuildHuffmanTree insertionSort (map_to_list frequencies) = Ret root ∧
    let codes := BuildHuffmanCodes (Some root) [] ∅ in
    (∀ c, is_Some (codes !! c) ↔ is_Some (frequencies !! c)) ∧
    (∀ c1 c2 w1 w2, codes !! c1 = Some w1 → codes !! c2 = Some w2 →
       c1 ≠ c2 → ¬ w1 `prefix_of` w2).
Proof.
  intros frequencies.
  assert (H1 : ranges_over frequencies (map_to_list frequencies))
    by (unfold ranges_over; reflexivity).
  assert (H2 : (1 ≤ size frequencies)%nat) by (vm_compute; lia).
  split; [apply insertionSort_spec|].
  split; [exact H1|]. split; [exact H2|].
  exact (C7_prefix_free insertionSort frequencies (map_to_list frequencies)
           insertionSort_spec H1 H2).
Defined.

(** ** The encoder *)

Lemma encrypt_loop_ok codes acc content :
  Forall (λ c, is_Some (codes !! c)) content →
  encrypt_loop codes acc content = inr (acc ++ code_concat codes content).
Proof.
  intros H. revert acc. induction H as [|c content [w Hw] _ IH]; intros acc.
  - simpl. by rewrite app_nil_r.
  - cbn [encrypt_loop]. rewrite Hw, IH. unfold code_concat.
    rewrite bind_cons, Hw. simpl. by rewrite app_assoc.
Qed.

Lemma encrypt_loop_inl codes acc content e :
  encrypt_loop codes acc content = inl e →
  ∃ c, e = NoCode c ∧ c ∈ content ∧ codes !! c = None.
Proof.
  revert acc. induction content as [|c content IH]; intros acc; simpl; [done|].
  destruct (codes !! c) as [w|] eqn:Hc.
  - intros H. destruct (IH _ H) as (c' & -> & Hin & Hnone).
    exists c'. split_and!; [done| |done]. by right.
  - intros [= <-]. exists c. split_and!; [done| |done]. by left.
Qed.

Lemma encrypt_loop_missing codes acc content c :
  c ∈ content → codes !! c = None →
  ∃ c', encrypt_loop codes acc content = inl (NoCode c').
Proof.
  intros Hin Hnone. destruct (encrypt_loop codes acc content) as [e|out] eqn:E.
  - apply encrypt_loop_inl in E as (c' & -> & _). eauto.
  - exfalso. revert acc out E. induction content as [|d content IH];
      intros acc out; simpl; [by apply elem_of_nil in Hin|].
    apply elem_of_cons in Hin as [<-|Hin].
    + by rewrite Hnone.
    + destruct (codes !! d); [|done]. by apply IH.
Qed.

(** C6: once the input file is read, [EncryptFile] returns the missing-code
    error exactly when some character of the content has no entry in the
    code map, and then leaves the files as they were; when every character
    has an entry the encoder produces the concatenation of the characters'
    codes in stream order, which is what is written to the output file. *)
Theorem C6_unknown_symbol (inputFile outputFile : string)
    (codes : gmap Z (list Z)) (w : world) (content : list Z) :
  ReadFile w inputFile = Some content →
  ((∃ c, (EncryptFile inputFile outputFile codes w).2 = Some (NoCode c)) ↔
     ∃ c, c ∈ content ∧ codes !! c = None) ∧
  (∀ c, (EncryptFile inputFile outputFile codes w).2 = Some (NoCode c) →
     (EncryptFile inputFile outputFile codes w).1 = w) ∧
  ((∀ c, c ∈ content → is_Some (codes !! c)) →
     encrypt codes content = inr (code_concat codes content) ∧
     (outputFile ∉ unwritable w →
        EncryptFile inputFile outputFile codes w =
          (mkWorld (<[outputFile := code_concat codes content]> (files w))
                   (unwritable w), None))).
Proof.
  intros Hread. unfold EncryptFile. rewrite Hread. split_and!.
  - split.
    + intros [c Hc]. unfold encrypt in Hc.
      destruct (encrypt_loop codes [] content) as [e|out] eqn:E.
      * apply encrypt_loop_inl in E as (c' & -> & Hin & Hnone). eauto.
      * unfold WriteFile in Hc. by case_decide.
    + intros (c & Hin & Hnone). unfold encrypt.
      destruct (encrypt_loop_missing codes [] content c Hin Hnone) as [c' ->].
      eauto.
  - intros c. destruct (encrypt codes content) as [e|out]; [done|].
    unfold WriteFile. by case_decide.
  - intros Hall.
    assert (encrypt codes content = inr (code_concat codes content)) as ->.
    { unfold encrypt. rewrite encrypt_loop_ok; [done|]. by apply Forall_forall. }
    split; [done|]. intros Hw. unfold WriteFile. by rewrite decide_False.
Qed.

(** C6 on a world with one input file holding ["ab"]: with the code map
    [{a: "0", b: "1"}]. *)
Lemma C6_unknown_symbol_witness :
  let w := mkWorld {[ "begin.txt"%string := [97; 98] ]} ∅ in
  let codes : gmap Z (list Z) := {[ 97 := [48]; 98 := [49] ]} in
  ReadFile w "begin.txt" = Some [97; 98] ∧
  EncryptFile "begin.txt" "encrypted.txt" codes w =
    (mkWorld (<["encrypted.txt"%string := [48; 49]]> (files w)) ∅, None).
Proof.
  intros w codes.
  assert (Hread : ReadFile w "begin.txt" = Some [97; 98]) by done.
  split; [exact Hread|].
  destruct (C6_unknown_symbol "begin.txt" "encrypted.txt" codes w [97; 98] Hread)
    as (_ & _ & Hok).
  destruct Hok as [_ Hfile].
  - intros c Hc. apply elem_of_cons in Hc as [->|Hc]; [by eexists|].
    apply list_elem_of_singleton in Hc as ->. by eexists.
  - apply Hfile. apply not_elem_of_empty.
Defined.

(** ** The decoder *)

Lemma child_rune_0 n : child rune_0 n = Left n.
Proof. done. Qed.

Lemma child_other bit n : bit ≠ rune_0 → child bit n = Right n.
Proof. intros H. unfold child. by rewrite (proj2 (Z.eqb_neq _ _) H). Qed.

(** Walking the whole path of a character from an internal node emits the
    character and puts the cursor back at the root. *)
Lemma decrypt_loop_path root t p c out bits :
  path t p c → p ≠ [] →
  decrypt_loop root (Some (node_of t)) out (p ++ bits) =
  decrypt_loop root root (out ++ string_of_rune c) bits.
Proof.
  induction 1 as [c f|f l r p c H IH|f l r p c H IH]; intros Hne; [done| |].
  - cbn [app decrypt_loop]. rewrite child_rune_0. cbn [node_of Left].
    rewrite no_children_node_of. destruct l as [c' f'|f' l' r'].
    + apply path_Leaf_inv in H as [-> ->]. done.
    + apply IH. intros ->. by apply path_nil_inv in H as [? ?].
  - cbn [app decrypt_loop]. rewrite child_other by done. cbn [node_of Right].
    rewrite no_children_node_of. destruct r as [c' f'|f' l' r'].
    + apply path_Leaf_inv in H as [-> ->]. done.
    + apply IH. intros ->. by apply path_nil_inv in H as [? ?].
Qed.

(** Walking only a part of a path emits nothing and raises nothing. *)
Lemma decrypt_loop_partial root t p c out partial rest :
  path t p c → p = partial ++ rest → rest ≠ [] →
  decrypt_loop root (Some (node_of t)) out partial = Ret out.
Proof.
  intros H. revert partial.
  induction H as [c f|f l r p c H IH|f l r p c H IH]; intros partial Hp Hrest.
  - symmetry in Hp. apply app_eq_nil in Hp as [-> _]. done.
  - destruct partial as [|b partial]; [done|].
    rewrite <- app_comm_cons in Hp. injection Hp as <- Hp.
    cbn [decrypt_loop]. rewrite child_rune_0. cbn [node_of Left].
    rewrite no_children_node_of. destruct l as [c' f'|f' l' r'].
    + apply path_Leaf_inv in H as [-> _].
      symmetry in Hp. by apply app_eq_nil in Hp as [_ ->].
    + by apply IH.
  - destruct partial as [|b partial]; [done|].
    rewrite <- app_comm_cons in Hp. injection Hp as <- Hp.
    cbn [decrypt_loop]. rewrite child_other by done. cbn [node_of Right].
    rewrite no_children_node_of. destruct r as [c' f'|f' l' r'].
    + apply path_Leaf_inv in H as [-> _].
      symmetry in Hp. by apply app_eq_nil in Hp as [_ ->].
    + by apply IH.
Qed.

(** Decoding the codes of a text, then whatever follows. *)
Lemma decrypt_loop_codes f l r (codes : gmap Z (list Z)) s out bits :
  (∀ c w, codes !! c = Some w → path (Br f l r) w c) →
  Forall (λ c, is_Some (codes !! c) ∧ valid_rune c) s →
  decrypt_loop (Some (node_of (Br f l r))) (Some (node_of (Br f l r))) out
    (code_concat codes s ++ bits) =
  decrypt_loop (Some (node_of (Br f l r))) (Some (node_of (Br f l r)))
    (out ++ s) bits.
Proof.
  intros Hcodes Hs. revert out.
  induction Hs as [|c s [[w Hw] Hv] _ IH]; intros out.
  - by rewrite app_nil_r.
  - unfold code_concat. rewrite bind_cons, Hw. cbn [default].
    rewrite <- app_assoc.
    pose proof (Hcodes c w Hw) as Hp.
    rewrite (decrypt_loop_path _ _ _ _ _ _ Hp).
    + unfold string_of_rune. destruct (valid_rune c); [|done].
      fold (code_concat codes s). rewrite IH. by rewrite <- app_assoc.
    + intros ->. by apply path_nil_inv in Hp as [? ?].
Qed.



(** ** The whole pipeline *)

Lemma count_loop_dom (m : gmap Z Z) text c :
  is_Some (foldl (λ m char, <[char := int_add (default 0 (m !! char)) 1]> m)
             m text !! c) ↔ c ∈ text ∨ is_Some (m !! c).
Proof.
  revert m. induction text as [|d text IH]; intros m; simpl.
  - rewrite elem_of_nil. tauto.
  - rewrite IH, elem_of_cons, lookup_insert_is_Some.
    destruct (decide (d = c)) as [->|Hne]; [by intuition|].
    split.
    + intros [?|[?|[_ ?]]]; auto; congruence.
    + intros [[?|?]|?]; auto; congruence.
Qed.

Lemma count_frequencies_dom text c :
  is_Some (count_frequencies text !! c) ↔ c ∈ text.
Proof.
  unfold count_frequencies. rewrite count_loop_dom, lookup_empty.
  split; [|by left]. intros [?|[? ?]]; done.
Qed.

(** From a text with two different characters [BuildHuffmanTree] returns a
    tree whose root is a parent, and the code book holds for each character
    of the text its path in that tree. *)
Lemma pipeline_tree sort text entries a b :
  SortSpec sort → ranges_over (count_frequencies text) entries →
  a ∈ text → b ∈ text → a ≠ b →
  ∃ f l r, BuildHuffmanTree sort entries = Ret (node_of (Br f l r)) ∧
    (∀ c w, BuildHuffmanCodes (Some (node_of (Br f l r))) [] ∅ !! c = Some w ↔
            path (Br f l r) w c) ∧
    (∀ c, c ∈ text →
       is_Some (BuildHuffmanCodes (Some (node_of (Br f l r))) [] ∅ !! c)).
Proof.
  intros Hs Hr Ha Hb Hab.
  destruct (BuildHuffmanTree_tree sort _ entries Hs Hr) as (t & Hroot & Hnd & Hdom).
  - apply count_frequencies_dom in Ha as [v Hv].
    pose proof (map_size_empty_iff (count_frequencies text)) as He.
    destruct (size (count_frequencies text)); [|lia].
    rewrite (proj1 He eq_refl), lookup_empty in Hv. done.
  - destruct t as [c f|f l r].
    + exfalso. apply Hab.
      apply count_frequencies_dom, Hdom, list_elem_of_singleton in Ha, Hb.
      congruence.
    + exists f, l, r. split; [done|]. split.
      * intros c w. by apply codes_path.
      * intros c Hc. apply count_frequencies_dom, Hdom, path_leaves in Hc as [p Hp].
        exists p. by apply codes_path.
Qed.

(** Encoding a text over the characters of the tree and decoding the result,
    followed by the first part of one more code, gives back the text. *)
Lemma decrypt_encrypt_partial f l r text c w partial rest :
  let root := node_of (Br f l r) in
  let codes := BuildHuffmanCodes (Some root) [] ∅ in
  (∀ c w, codes !! c = Some w ↔ path (Br f l r) w c) →
  Forall (λ c, is_Some (codes !! c) ∧ valid_rune c) text →
  codes !! c = Some w → w = partial ++ rest → rest ≠ [] →
  encrypt codes text = inr (code_concat codes text) ∧
  decrypt (Some root) (code_concat codes text ++ partial) = Ret text.
Proof.
  intros root codes Hcodes Htext Hw -> Hrest. split.
  - unfold encrypt. rewrite encrypt_loop_ok; [done|].
    eapply Forall_impl; [done|]. by intros ? [? _].
  - unfold decrypt, root.
    rewrite (decrypt_loop_codes f l r codes text); [|apply Hcodes|done].
    eapply decrypt_loop_partial; [by apply Hcodes|done..].
Qed.

(** C1: for a text with at least two different characters, the tree and code
    book built from its own frequency table encode it to a bit string that
    the decoder's walk over the same tree turns back into the text. *)
Theorem C1_round_trip sort (text : list Z) (entries : list (Z * Z)) (a b : Z) :
  SortSpec sort →
  ranges_over (count_frequencies text) entries →
  a ∈ text → b ∈ text → a ≠ b →
  Forall valid_rune text →
  ∃ root bits,
    BuildHuffmanTree sort entries = Ret root ∧
    encrypt (BuildHuffmanCodes (Some root) [] ∅) text = inr bits ∧
    decrypt (Some root) bits = Ret text.
Proof.
  intros Hs Hr Ha Hb Hab Hvalid.
  destruct (pipeline_tree sort text entries a b Hs Hr Ha Hb Hab)
    as (f & l & r & Hroot & Hcodes & Hdom).
  destruct (Hdom a Ha) as [w Hw].
  assert (w ≠ []) as Hne.
  { intros ->. by apply Hcodes, path_nil_inv in Hw as [? ?]. }
  destruct (decrypt_encrypt_partial f l r text a w [] w Hcodes) as [He Hd];
    try done.
  { apply Forall_forall. intros c Hc. split; [by apply Hdom|].
    by eapply Forall_forall in Hvalid. }
  rewrite app_nil_r in Hd. eauto.
Qed.

(** C1 at the text ["aaabbc"]. *)
Lemma C1_round_trip_witness :
  let text : list Z := [97; 97; 97; 98; 98; 99] in
  let entries := map_to_list (count_frequencies text) in
  SortSpec insertionSort ∧ ranges_over (count_frequencies text) entries ∧
  97 ∈ text ∧ 98 ∈ text ∧ 97 ≠ 98 ∧ Forall valid_rune text ∧
  ∃ root bits,
    BuildHuffmanTree insertionSort entries = Ret root ∧
    encrypt (BuildHuffmanCodes (Some root) [] ∅) text = inr bits ∧
    decrypt (Some root) bits = Ret text.
Proof.
  intros text entries.
  assert (H1 : ranges_over (count_frequencies text) entries)
    by (unfold ranges_over; reflexivity).
  assert (H2 : 97 ∈ text) by (apply list_elem_of_In; simpl; tauto).
  assert (H3 : 98 ∈ text) by (apply list_elem_of_In; simpl; tauto).
  assert (H4 : 97 ≠ 98) by lia.
  assert (H5 : Forall valid_rune text) by (by repeat constructor).
  split; [apply insertionSort_spec|].
  split; [exact H1|]. split; [exact H2|]. split; [exact H3|].
  split; [exact H4|]. split; [exact H5|].
  exact (C1_round_trip insertionSort text entries 97 98
           insertionSort_spec H1 H2 H3 H4 H5).
Defined.

(** C5, as the code has it: the decoder makes no check at the end of the
    stream.  A valid encoding followed by a non-empty proper part of one more
    code, so that the walk ends with the cursor away from the root, is
    accepted: the decoder returns the characters of the complete codes and
    drops the partial one without any error. *)
Theorem C5_truncation_undetected sort (text : list Z) (entries : list (Z * Z))
    (a b : Z) :
  SortSpec sort →
  ranges_over (count_frequencies text) entries →
  a ∈ text → b ∈ text → a ≠ b →
  Forall valid_rune text →
  ∃ root, BuildHuffmanTree sort entries = Ret root ∧
    ∀ s c w partial rest,
      Forall (λ x, x ∈ text) s →
      BuildHuffmanCodes (Some root) [] ∅ !! c = Some w →
      w = partial ++ rest → partial ≠ [] → rest ≠ [] →
      ∃ bits, encrypt (BuildHuffmanCodes (Some root) [] ∅) s = inr bits ∧
        decrypt (Some root) (bits ++ partial) = Ret s.
Proof.
  intros Hs Hr Ha Hb Hab Hvalid.
  destruct (pipeline_tree sort text entries a b Hs Hr Ha Hb Hab)
    as (f & l & r & Hroot & Hcodes & Hdom).
  eexists. split; [done|]. intros s c w partial rest Hin Hw Hsplit _ Hrest.
  eexists. eapply (decrypt_encrypt_partial f l r s c w partial rest); try done.
  apply Forall_forall. intros x Hx.
  rewrite Forall_forall in Hin, Hvalid. split; [by apply Hdom, Hin|].
  by apply Hvalid, Hin.
Qed.

(** C5 at the text ["aaabbc"]. *)
Lemma C5_truncation_undetected_witness :
  let text : list Z := [97; 97; 97; 98; 98; 99] in
  let entries := map_to_list (count_frequencies text) in
  SortSpec insertionSort ∧ ranges_over (count_frequencies text) entries ∧
  97 ∈ text ∧ 98 ∈ text ∧ 97 ≠ 98 ∧ Forall valid_rune text ∧
  ∃ root, BuildHuffmanTree insertionSort entries = Ret root ∧
    ∀ s c w partial rest,
      Forall (λ x, x ∈ text) s →
      BuildHuffmanCodes (Some root) [] ∅ !! c = Some w →
      w = partial ++ rest → partial ≠ [] → rest ≠ [] →
      ∃ bits, encrypt (BuildHuffmanCodes (Some root) [] ∅) s = inr bits ∧
        decrypt (Some root) (bits ++ partial) = Ret s.
Proof.
  intros text entries.
  assert (H1 : ranges_over (count_frequencies text) entries)
    by (unfold ranges_over; reflexivity).
  assert (H2 : 97 ∈ text) by (apply list_elem_of_In; simpl; tauto).
  assert (H3 : 98 ∈ text) by (apply list_elem_of_In; simpl; tauto).
  assert (H4 : 97 ≠ 98) by lia.
  assert (H5 : Forall valid_rune text) by (by repeat constructor).
  split; [apply insertionSort_spec|].
  split; [exact H1|]. split; [exact H2|]. split; [exact H3|].
  split; [exact H4|]. split; [exact H5|].
  exact (C5_truncation_undetected insertionSort text entries 97 98
           insertionSort_spec H1 H2 H3 H4 H5).
Defined.

(** ** Ties and the order of the collection *)







(** ** One merge step *)




(** C5 as the specification states it fails: with the tree of the table
    [{a: 4, b: 2, c: 1}] the text ["ab"] is encoded as ["101"]; the decoder
    given ["10"], the encoding without its last bit, returns ["a"] and raises
    nothing; [DecryptFile] writes ["a"] and returns a nil error. *)
Lemma C5_truncated_stream_accepted :
  let root := parent (parent (leaf (99, 1)) (leaf (98, 2))) (leaf (97, 4)) in
  let w := mkWorld {[ "encrypted.txt"%string := [rune_1; rune_0] ]} ∅ in
  BuildHuffmanTree insertionSort [(97, 4); (98, 2); (99, 1)] = Ret root ∧
  encrypt (BuildHuffmanCodes (Some root) [] ∅) [97; 98]
    = inr [rune_1; rune_0; rune_1] ∧
  decrypt (Some root) [rune_1; rune_0] = Ret [97] ∧
  DecryptFile "encrypted.txt" "decrypted.txt" (Some root) w
    = Ret (mkWorld (<["decrypted.txt"%string := [97]]> (files w)) ∅, None).
Proof. intros root w. split_and!; by vm_compute. Qed.

(** * Further properties of the code *)

(** ** Induction on nodes *)

Section Node_induction.
Variable P : Node → Prop.
Hypothesis Hnode : ∀ c f l r p,
  from_option P True l → from_option P True r → P (mkNode c f l r p).

Fixpoint Node_ind' (n : Node) : P n :=
  match n with
  | mkNode c f l r p =>
      Hnode c f l r p
        (match l as o return from_option P True o with
         | Some l' => Node_ind' l'
         | None => I
         end)
        (match r as o return from_option P True o with
         | Some r' => Node_ind' r'
         | None => I
         end)
  end.
End Node_induction.

(** ** BuildHuffmanCodes and PrintHuffmanTree on any tree *)

Lemma store_lines_app codes l1 l2 :
  store_lines codes (l1 ++ l2) = store_lines (store_lines codes l1) l2.
Proof. apply foldl_app. Qed.

Lemma BuildHuffmanCodes_node_lines n : ∀ code codes,
  BuildHuffmanCodes_node n code codes =
  store_lines codes (PrintHuffmanTree_node n code).
Proof.
  induction n as [c f l r p IHl IHr] using Node_ind'. intros code codes.
  destruct p; simpl; [|done].
  rewrite store_lines_app.
  destruct l as [l'|], r as [r'|]; simpl in *; by rewrite ?IHl, ?IHr.
Qed.

Lemma BuildHuffmanCodes_lines (root : option Node) code codes :
  BuildHuffmanCodes root code codes =
  store_lines codes (PrintHuffmanTree root code).
Proof.
  destruct root as [n|]; [|done]. apply BuildHuffmanCodes_node_lines.
Qed.

(** X1: the code map [BuildHuffmanCodes] leaves is the map it was given
    with, for each line [PrintHuffmanTree] prints for the same tree and
    prefix, the printed code stored under the printed character, in printing
    order; on every tree, well formed or not, and on the nil tree. *)
Theorem X1_codes_are_the_printed_lines (root : option Node)
    (code : list Z) (codes : gmap Z (list Z)) :
  BuildHuffmanCodes root code codes =
  store_lines codes (PrintHuffmanTree root code).
Proof.
  destruct root as [n|]; [|done]. simpl.
  revert code codes. induction n as [c f l r p IHl IHr] using Node_ind'.
  intros code codes. destruct p; simpl; [|done].
  rewrite store_lines_app.
  destruct l as [l'|], r as [r'|]; simpl in *; by rewrite ?IHl, ?IHr.
Qed.

Lemma PrintHuffmanTree_node_bits n : ∀ code,
  Forall (λ line, ∃ p, line.2 = code ++ p ∧ bit_string p)
    (PrintHuffmanTree_node n code).
Proof.
  induction n as [c f l r p IHl IHr] using Node_ind'. intros code.
  destruct p; simpl.
  - apply Forall_app. split.
    + destruct l as [l'|]; [|constructor]. simpl in IHl.
      eapply Forall_impl; [apply IHl|]. intros line (q & -> & Hq).
      exists (rune_0 :: q). rewrite <- app_assoc. split; [done|].
      constructor; [by left|done].
    + destruct r as [r'|]; [|constructor]. simpl in IHr.
      eapply Forall_impl; [apply IHr|]. intros line (q & -> & Hq).
      exists (rune_1 :: q). rewrite <- app_assoc. split; [done|].
      constructor; [by right|done].
  - repeat constructor. exists []. split; [by rewrite app_nil_r|constructor].
Qed.

Lemma store_lines_lookup lines : ∀ codes c w,
  store_lines codes lines !! c = Some w →
  codes !! c = Some w ∨ (c, w) ∈ lines.
Proof.
  induction lines as [|[c' w'] lines IH]; intros codes c w; simpl; [by left|].
  intros H. apply IH in H as [H|H]; [|right; by right].
  destruct (decide (c' = c)) as [->|Hne].
  - rewrite lookup_insert_eq in H. injection H as ->. right. by left.
  - rewrite lookup_insert_ne in H by done. by left.
Qed.

Lemma store_lines_dom lines : ∀ codes c,
  is_Some (codes !! c) → is_Some (store_lines codes lines !! c).
Proof.
  induction lines as [|[c' w'] lines IH]; intros codes c Hc; simpl; [done|].
  apply IH. rewrite lookup_insert_is_Some. destruct (decide (c' = c)); auto.
Qed.

Lemma BuildHuffmanCodes_lookup (root : option Node) code codes c w :
  BuildHuffmanCodes root code codes !! c = Some w →
  codes !! c = Some w ∨ ∃ p, w = code ++ p ∧ bit_string p.
Proof.
  rewrite BuildHuffmanCodes_lines.
  intros Hw. apply store_lines_lookup in Hw as [Hw|Hw]; [by left|right].
  destruct root as [n|]; simpl in Hw; [|by apply elem_of_nil in Hw].
  pose proof (PrintHuffmanTree_node_bits n code) as Hall.
  rewrite Forall_forall in Hall. apply (Hall _ Hw).
Qed.

(** X2: [BuildHuffmanCodes] never removes a character from the map it is
    given, and every code it stores is the prefix it was called with followed
    by ['0'] and ['1'] characters only; this holds on every tree. *)
Theorem X2_codes_keep_keys_and_are_bits (root : option Node)
    (code : list Z) (codes : gmap Z (list Z)) (c : Z) :
  (is_Some (codes !! c) → is_Some (BuildHuffmanCodes root code codes !! c)) ∧
  (∀ w, BuildHuffmanCodes root code codes !! c = Some w →
        codes !! c = Some w ∨ ∃ p, w = code ++ p ∧ bit_string p).
Proof.
  split.
  - rewrite BuildHuffmanCodes_lines. apply store_lines_dom.
  - intros w. apply BuildHuffmanCodes_lookup.
Qed.

Lemma encrypt_loop_bits codes : ∀ content acc bits,
  (∀ c w, codes !! c = Some w → bit_string w) → bit_string acc →
  encrypt_loop codes acc content = inr bits → bit_string bits.
Proof.
  induction content as [|c content IH]; intros acc bits Hcodes Hacc; simpl.
  - by intros [= <-].
  - destruct (codes !! c) as [w|] eqn:Hw; [|done].
    apply IH; [done|]. apply Forall_app. split; [done|]. by eapply Hcodes.
Qed.

(** X3: with the code map that [main] builds (empty prefix, empty map) from
    any tree whatever, what the encoder produces holds no character other
    than ['0'] and ['1']. *)
Theorem X3_encrypt_output_is_bits (root : option Node) (content bits : list Z) :
  encrypt (BuildHuffmanCodes root [] ∅) content = inr bits →
  bit_string bits.
Proof.
  apply encrypt_loop_bits; [|constructor].
  intros c w Hw.
  destruct (BuildHuffmanCodes_lookup root [] ∅ c w Hw) as [He|(p & -> & Hp)];
    [|done].
  by rewrite lookup_empty in He.
Qed.

(** ** The degenerate table *)

Lemma BuildHuffmanTree_singleton sort e :
  SortSpec sort → BuildHuffmanTree sort [e] = Ret (leaf e).
Proof.
  intros Hs. unfold BuildHuffmanTree.
  assert (sort (leaf <$> [e]) = [leaf e]) as ->; [|done].
  apply Permutation_singleton_r, sort_Permutation.
Qed.

Lemma encrypt_empty_codes (c : Z) content :
  Forall (λ x, x = c) content →
  encrypt {[ c := [] ]} content = inr [].
Proof.
  intros H. unfold encrypt. rewrite encrypt_loop_ok.
  - f_equal. induction H as [|x content -> _ IH]; [done|].
    unfold code_concat in *. by rewrite bind_cons, lookup_singleton_eq.
  - eapply Forall_impl; [done|]. intros x ->. by rewrite lookup_singleton_eq.
Qed.

Lemma map_size_1_inv (m : gmap Z Z) :
  size m = 1%nat → ∃ c f, m = {[ c := f ]}.
Proof.
  intros Hsize. rewrite <- length_map_to_list in Hsize.
  destruct (map_to_list m) as [|[c f] [|? ?]] eqn:E; try done.
  exists c, f. rewrite <- (list_to_map_to_list m), E. simpl.
  by rewrite insert_empty.
Qed.

(** X4: a frequency table with a single character [c] gives the single leaf
    as the tree and the empty string as the code of [c]; every text made of
    [c] alone is then encoded as the empty string, whatever its length, and
    the empty string decodes to the empty text. *)
Theorem X4_single_character_table sort (frequencies : gmap Z Z)
    (entries : list (Z * Z)) :
  SortSpec sort →
  ranges_over frequencies entries →
  size frequencies = 1%nat →
  ∃ c f, frequencies = {[ c := f ]} ∧
    BuildHuffmanTree sort entries = Ret (leaf (c, f)) ∧
    BuildHuffmanCodes (Some (leaf (c, f))) [] ∅ = {[ c := [] ]} ∧
    (∀ content, Forall (λ x, x = c) content →
       encrypt {[ c := [] ]} content = inr []) ∧
    decrypt (Some (leaf (c, f))) [] = Ret [].
Proof.
  intros Hs Hr Hsize.
  apply map_size_1_inv in Hsize as (c & f & ->). exists c, f.
  unfold ranges_over in Hr. rewrite map_to_list_singleton in Hr.
  apply Permutation_singleton_r in Hr as ->.
  split_and!; try done.
  - by apply BuildHuffmanTree_singleton.
  - apply encrypt_empty_codes.
Qed.

(** X4 at the table of the text ["aaaa"]. *)
Lemma X4_single_character_table_witness :
  let frequencies := count_frequencies [97; 97; 97; 97] in
  SortSpec insertionSort ∧
  ranges_over frequencies (map_to_list frequencies) ∧
  size frequencies = 1%nat ∧
  ∃ c f, frequencies = {[ c := f ]} ∧
    BuildHuffmanTree insertionSort (map_to_list frequencies) = Ret (leaf (c, f)) ∧
    BuildHuffmanCodes (Some (leaf (c, f))) [] ∅ = {[ c := [] ]} ∧
    (∀ content, Forall (λ x, x = c) content →
       encrypt {[ c := [] ]} content = inr []) ∧
    decrypt (Some (leaf (c, f))) [] = Ret [].
Proof.
  intros frequencies.
  assert (H1 : ranges_over frequencies (map_to_list frequencies))
    by (unfold ranges_over; reflexivity).
  assert (H2 : size frequencies = 1%nat) by (by vm_compute).
  split; [apply insertionSort_spec|]. split; [exact H1|]. split; [exact H2|].
  exact (X4_single_character_table insertionSort frequencies
           (map_to_list frequencies) insertionSort_spec H1 H2).
Defined.

(** ** The decoder on every bit string *)

Lemma child_as_bit bit n : child (as_bit bit) n = child bit n.
Proof. unfold child, as_bit. by destruct (bit =? rune_0). Qed.

Lemma tree_has_path t : ∃ p c, path t p c.
Proof.
  induction t as [c f|f l [p [c Hp]] r _].
  - exists [], c. constructor.
  - exists (rune_0 :: p), c. by constructor.
Qed.

Lemma reach_path t q t' p c : reach t q t' → path t' p c → path t (q ++ p) c.
Proof. induction 1; intros Hp; simpl; [done|constructor; auto..]. Qed.

Lemma reach_snoc_left t q f l r :
  reach t q (Br f l r) → reach t (q ++ [rune_0]) l.
Proof.
  intros H. remember (Br f l r) as t' eqn:E. revert E.
  induction H as [t|f' l' r' q t' H IH|f' l' r' q t' H IH]; intros ->; simpl.
  - repeat constructor.
  - constructor. by apply IH.
  - constructor. by apply IH.
Qed.

Lemma reach_snoc_right t q f l r :
  reach t q (Br f l r) → reach t (q ++ [rune_1]) r.
Proof.
  intros H. remember (Br f l r) as t' eqn:E. revert E.
  induction H as [t|f' l' r' q t' H IH|f' l' r' q t' H IH]; intros ->; simpl.
  - repeat constructor.
  - constructor. by apply IH.
  - constructor. by apply IH.
Qed.

Lemma path_in_leaves t p c : path t p c → c ∈ leaves (node_of t).
Proof. intros H. apply path_leaves. eauto. Qed.

(** One step of the walk from an internal node. *)
Lemma decrypt_loop_step root f l r out bit bits :
  decrypt_loop root (Some (node_of (Br f l r))) out (bit :: bits) =
  let next := if bit =? rune_0 then l else r in
  match next with
  | Leaf c _ => decrypt_loop root root (out ++ string_of_rune c) bits
  | Br _ _ _ => decrypt_loop root (Some (node_of next)) out bits
  end.
Proof.
  cbn [decrypt_loop node_of]. unfold child. cbn [Left Right].
  destruct (bit =? rune_0).
  - rewrite no_children_node_of. by destruct l.
  - rewrite no_children_node_of. by destruct r.
Qed.

(** From an internal node of a tree whose root is internal the walk returns
    on every input. *)
Lemma decrypt_loop_returns f0 l0 r0 bits : ∀ f l r out,
  ∃ s, decrypt_loop (Some (node_of (Br f0 l0 r0)))
         (Some (node_of (Br f l r))) out bits = Ret s.
Proof.
  induction bits as [|bit bits IH]; intros f l r out; [by eexists|].
  rewrite decrypt_loop_step. cbn zeta.
  destruct (if bit =? rune_0 then l else r) as [c fc|f' l' r']; apply IH.
Qed.

Lemma code_concat_cons codes c w s :
  codes !! c = Some w → code_concat codes (c :: s) = w ++ code_concat codes s.
Proof. intros H. unfold code_concat. by rewrite bind_cons, H. Qed.

(** The walk parses every input: the decoded text, re-encoded, is the input
    read as bits, up to a last part that stops inside a code. *)
Lemma decrypt_loop_parse f0 l0 r0 (codes : gmap Z (list Z)) :
  let t0 := Br f0 l0 r0 in
  (∀ c, c ∈ leaves (node_of t0) → valid_rune c) →
  (∀ c w, codes !! c = Some w ↔ path t0 w c) →
  ∀ bits f l r q out,
    reach t0 q (Br f l r) →
    ∃ s partial c w rest,
      decrypt_loop (Some (node_of t0)) (Some (node_of (Br f l r))) out bits
        = Ret (out ++ s) ∧
      Forall (λ x, x ∈ leaves (node_of t0)) s ∧
      q ++ (as_bit <$> bits) = code_concat codes s ++ partial ∧
      codes !! c = Some w ∧ w = partial ++ rest ∧ rest ≠ [].
Proof.
  intros t0 Hvalid Hcodes.
  induction bits as [|bit bits IH]; intros f l r q out Hq.
  - destruct (tree_has_path (Br f l r)) as (p & c & Hp).
    exists [], q, c, (q ++ p), p. rewrite !app_nil_r. split_and!; try done.
    + apply Hcodes. by eapply reach_path.
    + intros ->. by apply path_nil_inv in Hp as [? ?].
  - rewrite decrypt_loop_step. cbn zeta. rewrite fmap_cons.
    assert (reach t0 (q ++ [as_bit bit]) (if bit =? rune_0 then l else r))
      as Hnext.
    { unfold as_bit. destruct (bit =? rune_0);
        [by eapply reach_snoc_left | by eapply reach_snoc_right]. }
    replace (q ++ as_bit bit :: (as_bit <$> bits))
      with ((q ++ [as_bit bit]) ++ (as_bit <$> bits))
      by (by rewrite <- app_assoc).
    destruct (if bit =? rune_0 then l else r) as [c fc|f' l' r'].
    + assert (path t0 (q ++ [as_bit bit]) c) as Hc.
      { rewrite <- (app_nil_r (q ++ [as_bit bit])).
        eapply reach_path; [done|constructor]. }
      pose proof (path_in_leaves _ _ _ Hc) as Hin.
      destruct (IH f0 l0 r0 [] (out ++ string_of_rune c) (reach_here t0))
        as (s & partial & c' & w & rest & Hd & Hs & Hbits & Hw & Hsplit & Hrest).
      exists (c :: s), partial, c', w, rest.
      pose proof (Hvalid c Hin) as Hv. unfold string_of_rune in *.
      destruct (valid_rune c); [|done].
      split_and!; try done.
      * rewrite <- app_assoc in Hd. exact Hd.
      * by constructor.
      * rewrite (code_concat_cons codes c (q ++ [as_bit bit])) by by apply Hcodes.
        simpl in Hbits. by rewrite Hbits, app_assoc.
    + apply IH, Hnext.
Qed.

Lemma BuildHuffmanTree_tree_size sort (frequencies : gmap Z Z) entries :
  SortSpec sort → ranges_over frequencies entries →
  (1 ≤ size frequencies)%nat →
  ∃ t, BuildHuffmanTree sort entries = Ret (node_of t) ∧
    NoDup (leaves (node_of t)) ∧
    (∀ c, c ∈ leaves (node_of t) ↔ is_Some (frequencies !! c)) ∧
    length (leaves (node_of t)) = size frequencies.
Proof.
  intros Hs Hr Hn.
  destruct (BuildHuffmanTree_tree sort frequencies entries Hs Hr Hn)
    as (t & Hroot & Hnd & Hdom).
  exists t. split_and!; try done.
  rewrite <- (ranges_over_length _ _ Hr), <- (length_fmap fst entries).
  apply Permutation_length, NoDup_Permutation; [done| |].
  - by eapply ranges_over_NoDup.
  - intros c. rewrite Hdom. symmetry. by apply ranges_over_elem_of.
Qed.

Lemma leaves_length_Br f l r : (2 ≤ length (leaves (node_of (Br f l r))))%nat.
Proof.
  assert (∀ t, (1 ≤ length (leaves (node_of t)))%nat) as H.
  { induction t as [|f' l' IHl r' IHr]; [simpl; lia|].
    rewrite leaves_Br, length_app. lia. }
  rewrite leaves_Br, length_app. pose proof (H l). pose proof (H r). lia.
Qed.

(** X5: on the tree [BuildHuffmanTree] returns for a non-empty table, the
    decoder's walk panics (nil dereference) exactly when the table has a
    single character and the input is not empty; in every other case, and
    whatever characters the input holds, it returns a text. *)
Theorem X5_decrypt_panics_only_on_single_leaf sort (frequencies : gmap Z Z)
    (entries : list (Z * Z)) :
  SortSpec sort →
  ranges_over frequencies entries →
  (1 ≤ size frequencies)%nat →
  ∃ root, BuildHuffmanTree sort entries = Ret root ∧
    ∀ bits,
      (size frequencies = 1%nat ∧ bits ≠ [] ∧
       decrypt (Some root) bits = Panic NilDereference) ∨
      ((size frequencies ≠ 1%nat ∨ bits = []) ∧
       ∃ s, decrypt (Some root) bits = Ret s).
Proof.
  intros Hs Hr Hn.
  destruct (BuildHuffmanTree_tree_size sort frequencies entries Hs Hr Hn)
    as (t & Hroot & _ & _ & Hlen).
  exists (node_of t). split; [done|]. intros bits.
  destruct t as [c f|f l r].
  - simpl in Hlen. destruct bits as [|bit bits].
    + right. split; [by right|]. by eexists.
    + left. split_and!; try done.
      unfold decrypt. cbn [decrypt_loop node_of]. unfold child. cbn [Left Right].
      by destruct (bit =? rune_0).
  - right. pose proof (leaves_length_Br f l r). split; [left; lia|].
    apply decrypt_loop_returns.
Qed.

(** X5 at the table [{a: 3, b: 2, c: 1}]. *)
Lemma X5_decrypt_panics_only_on_single_leaf_witness :
  let frequencies : gmap Z Z := {[ 97 := 3; 98 := 2; 99 := 1 ]} in
  SortSpec insertionSort ∧
  ranges_over frequencies (map_to_list frequencies) ∧
  (1 ≤ size frequencies)%nat ∧
  ∃ root, BuildHuffmanTree insertionSort (map_to_list frequencies) = Ret root ∧
    ∀ bits,
      (size frequencies = 1%nat ∧ bits ≠ [] ∧
       decrypt (Some root) bits = Panic NilDereference) ∨
      ((size frequencies ≠ 1%nat ∨ bits = []) ∧
       ∃ s, decrypt (Some root) bits = Ret s).
Proof.
  intros frequencies.
  assert (H1 : ranges_over frequencies (map_to_list frequencies))
    by (unfold ranges_over; reflexivity).
  assert (H2 : (1 ≤ size frequencies)%nat) by (vm_compute; lia).
  split; [apply insertionSort_spec|]. split; [exact H1|]. split; [exact H2|].
  exact (X5_decrypt_panics_only_on_single_leaf insertionSort frequencies
           (map_to_list frequencies) insertionSort_spec H1 H2).
Defined.

Lemma pipeline_tree_leaves sort text entries a b :
  SortSpec sort → ranges_over (count_frequencies text) entries →
  a ∈ text → b ∈ text → a ≠ b →
  ∃ f l r, BuildHuffmanTree sort entries = Ret (node_of (Br f l r)) ∧
    (∀ c w, BuildHuffmanCodes (Some (node_of (Br f l r))) [] ∅ !! c = Some w ↔
            path (Br f l r) w c) ∧
    (∀ c, c ∈ leaves (node_of (Br f l r)) ↔ c ∈ text) ∧
    NoDup (leaves (node_of (Br f l r))).
Proof.
  intros Hs Hr Ha Hb Hab.
  destruct (BuildHuffmanTree_tree sort _ entries Hs Hr) as (t & Hroot & Hnd & Hdom).
  - apply count_frequencies_dom in Ha.
    apply Nat.le_succ_l, Nat.neq_0_lt_0. by eapply map_size_ne_0_lookup_2.
  - assert (∀ c, c ∈ leaves (node_of t) ↔ c ∈ text) as Hl.
    { intros c. by rewrite Hdom, count_frequencies_dom. }
    destruct t as [c f|f l r].
    + exfalso. apply Hab. apply Hl, list_elem_of_singleton in Ha, Hb. congruence.
    + exists f, l, r. split_and!; try done. intros c w. by apply codes_path.
Qed.

(** X6: with the tree and code map built from a text with two different
    characters, the decoder parses every input, whatever its characters:
    it returns a text [s] over the characters of the original text whose
    encoding is the input read as bits (['0'] is ['0'], anything else
    ['1']), less a last part that stops inside some code. *)
Theorem X6_decrypt_parses_every_input sort (text : list Z)
    (entries : list (Z * Z)) (a b : Z) :
  SortSpec sort →
  ranges_over (count_frequencies text) entries →
  a ∈ text → b ∈ text → a ≠ b →
  Forall valid_rune text →
  ∃ root, BuildHuffmanTree sort entries = Ret root ∧
    ∀ bits, ∃ s encoded partial c w rest,
      decrypt (Some root) bits = Ret s ∧
      Forall (λ x, x ∈ text) s ∧
      encrypt (BuildHuffmanCodes (Some root) [] ∅) s = inr encoded ∧
      as_bit <$> bits = encoded ++ partial ∧
      BuildHuffmanCodes (Some root) [] ∅ !! c = Some w ∧
      w = partial ++ rest ∧ rest ≠ [].
Proof.
  intros Hs Hr Ha Hb Hab Hvalid.
  destruct (pipeline_tree_leaves sort text entries a b Hs Hr Ha Hb Hab)
    as (f & l & r & Hroot & Hcodes & Hleaves & _).
  exists (node_of (Br f l r)). split; [done|]. intros bits.
  destruct (decrypt_loop_parse f l r _
              (λ c Hc, proj1 (Forall_forall _ _) Hvalid c
                         (proj1 (Hleaves c) Hc))
              Hcodes bits f l r [] [] (reach_here _))
    as (s & partial & c & w & rest & Hd & Hin & Hbits & Hw & Hsplit & Hrest).
  exists s, (code_concat (BuildHuffmanCodes (Some (node_of (Br f l r))) [] ∅) s),
    partial, c, w, rest.
  split_and!; try done.
  - eapply Forall_impl; [done|]. intros x. apply Hleaves.
  - unfold encrypt. rewrite encrypt_loop_ok; [done|].
    eapply Forall_impl; [done|]. intros x Hx. cbn beta in Hx.
    apply (path_leaves (Br f l r)) in Hx as [p Hp]. exists p. by apply Hcodes.
Qed.

(** X6 at the text ["aaabbc"]. *)
Lemma X6_decrypt_parses_every_input_witness :
  let text : list Z := [97; 97; 97; 98; 98; 99] in
  let entries := map_to_list (count_frequencies text) in
  SortSpec insertionSort ∧ ranges_over (count_frequencies text) entries ∧
  97 ∈ text ∧ 98 ∈ text ∧ 97 ≠ 98 ∧ Forall valid_rune text ∧
  ∃ root, BuildHuffmanTree insertionSort entries = Ret root ∧
    ∀ bits, ∃ s encoded partial c w rest,
      decrypt (Some root) bits = Ret s ∧
      Forall (λ x, x ∈ text) s ∧
      encrypt (BuildHuffmanCodes (Some root) [] ∅) s = inr encoded ∧
      as_bit <$> bits = encoded ++ partial ∧
      BuildHuffmanCodes (Some root) [] ∅ !! c = Some w ∧
      w = partial ++ rest ∧ rest ≠ [].
Proof.
  intros text entries.
  assert (H1 : ranges_over (count_frequencies text) entries)
    by (unfold ranges_over; reflexivity).
  assert (H2 : 97 ∈ text) by (apply list_elem_of_In; simpl; tauto).
  assert (H3 : 98 ∈ text) by (apply list_elem_of_In; simpl; tauto).
  assert (H4 : 97 ≠ 98) by lia.
  assert (H5 : Forall valid_rune text) by (by repeat constructor).
  split; [apply insertionSort_spec|].
  split; [exact H1|]. split; [exact H2|]. split; [exact H3|].
  split; [exact H4|]. split; [exact H5|].
  exact (X6_decrypt_parses_every_input insertionSort text entries 97 98
           insertionSort_spec H1 H2 H3 H4 H5).
Defined.

(** ** The two file operations *)

Lemma encrypt_loop_first_missing codes pre c post : ∀ acc,
  Forall (λ x, is_Some (codes !! x)) pre → codes !! c = None →
  encrypt_loop codes acc (pre ++ c :: post) = inl (NoCode c).
Proof.
  induction pre as [|x pre IH]; intros acc Hpre Hc; simpl.
  - by rewrite Hc.
  - apply Forall_cons in Hpre as [[w Hw] Hpre]. rewrite Hw. by apply IH.
Qed.

(** X7: the error [EncryptFile] returns names the first character of the
    input that has no entry in the code map, even when later characters lack
    one too, and nothing is written. *)
Theorem X7_EncryptFile_reports_first_missing (inputFile outputFile : string)
    (codes : gmap Z (list Z)) (w : world) (pre post : list Z) (c : Z) :
  ReadFile w inputFile = Some (pre ++ c :: post) →
  Forall (λ x, is_Some (codes !! x)) pre →
  codes !! c = None →
  EncryptFile inputFile outputFile codes w = (w, Some (NoCode c)).
Proof.
  intros Hread Hpre Hc. unfold EncryptFile, encrypt. rewrite Hread.
  by rewrite encrypt_loop_first_missing.
Qed.

(** X7 on the content ["abcb"] with codes for [a] alone. *)
Lemma X7_EncryptFile_reports_first_missing_witness :
  let w := mkWorld {[ "begin.txt"%string := [97; 98; 99; 98] ]} ∅ in
  let codes : gmap Z (list Z) := {[ 97 := [48] ]} in
  ReadFile w "begin.txt" = Some ([97] ++ 98 :: [99; 98]) ∧
  Forall (λ x, is_Some (codes !! x)) [97] ∧
  codes !! 98 = None ∧
  EncryptFile "begin.txt" "encrypted.txt" codes w = (w, Some (NoCode 98)).
Proof.
  intros w codes.
  assert (H1 : ReadFile w "begin.txt" = Some ([97] ++ 98 :: [99; 98])) by done.
  assert (H2 : Forall (λ x, is_Some (codes !! x)) [97]).
  { repeat constructor. by eexists. }
  assert (H3 : codes !! 98 = None) by done.
  split; [exact H1|]. split; [exact H2|]. split; [exact H3|].
  exact (X7_EncryptFile_reports_first_missing "begin.txt" "encrypted.txt"
           codes w [97] [99; 98] 98 H1 H2 H3).
Defined.


(** X9: [DecryptFile] given the nil tree writes an empty output file when the
    input file is empty, and panics on a nil dereference, writing nothing,
    as soon as the input holds one character. *)
Theorem X9_DecryptFile_nil_root (inputFile outputFile : string) (w : world)
    (content : list Z) :
  ReadFile w inputFile = Some content →
  outputFile ∉ unwritable w →
  DecryptFile inputFile outputFile None w =
    match content with
    | [] => Ret (mkWorld (<[outputFile := []]> (files w)) (unwritable w), None)
    | _ :: _ => Panic NilDereference
    end.
Proof.
  intros Hread Hw. unfold DecryptFile, WriteFile. rewrite Hread.
  destruct content; simpl; [|done]. by rewrite decide_False.
Qed.

(** X9 on an input file holding ["0"]. *)
Lemma X9_DecryptFile_nil_root_witness :
  let w := mkWorld {[ "encrypted.txt"%string := [48] ]} ∅ in
  ReadFile w "encrypted.txt" = Some [48] ∧
  ("decrypted.txt"%string ∉ unwritable w) ∧
  DecryptFile "encrypted.txt" "decrypted.txt" None w = Panic NilDereference.
Proof.
  intros w.
  assert (H1 : ReadFile w "encrypted.txt" = Some [48]) by done.
  assert (H2 : "decrypted.txt"%string ∉ unwritable w) by apply not_elem_of_empty.
  split; [exact H1|]. split; [exact H2|].
  exact (X9_DecryptFile_nil_root "encrypted.txt" "decrypted.txt" w [48] H1 H2).
Defined.



(** X3 at the tree of the table [{a: 1, b: 1}] and the text ["ab"]. *)
Lemma X3_encrypt_output_is_bits_witness :
  let root := Some (parent (leaf (97, 1)) (leaf (98, 1))) in
  encrypt (BuildHuffmanCodes root [] ∅) [97; 98] = inr [rune_0; rune_1] ∧
  bit_string [rune_0; rune_1].
Proof.
  intros root.
  assert (H : encrypt (BuildHuffmanCodes root [] ∅) [97; 98]
              = inr [rune_0; rune_1]) by (by vm_compute).
  split; [exact H|].
  exact (X3_encrypt_output_is_bits root [97; 98] [rune_0; rune_1] H).
Defined.

(** ** The length of the codes *)

Lemma internal_nodes_leaves t :
  (internal_nodes (node_of t) + 1 = length (leaves (node_of t)))%nat.
Proof.
  induction t as [c f|f l IHl r IHr]; [done|].
  rewrite leaves_Br, length_app. simpl. lia.
Qed.

Lemma path_length t p c :
  path t p c → (length p ≤ internal_nodes (node_of t))%nat.
Proof. induction 1; simpl; lia. Qed.

(** X11: in the code map of a table with [n ≥ 1] characters no code is
    longer than [n - 1] bits, and with two characters or more no code is
    empty. *)
Theorem X11_code_length_bounds sort (frequencies : gmap Z Z)
    (entries : list (Z * Z)) :
  SortSpec sort →
  ranges_over frequencies entries →
  (1 ≤ size frequencies)%nat →
  ∃ root, BuildHuffmanTree sort entries = Ret root ∧
    ∀ c w, BuildHuffmanCodes (Some root) [] ∅ !! c = Some w →
      (length w ≤ size frequencies - 1)%nat ∧
      ((2 ≤ size frequencies)%nat → (1 ≤ length w)%nat).
Proof.
  intros Hs Hr Hn.
  destruct (BuildHuffmanTree_tree_size sort frequencies entries Hs Hr Hn)
    as (t & Hroot & Hnd & _ & Hlen).
  exists (node_of t). split; [done|]. intros c w Hw.
  apply (codes_path t c w Hnd) in Hw.
  pose proof (path_length _ _ _ Hw). pose proof (internal_nodes_leaves t).
  split; [lia|]. intros H2. destruct w; [|simpl; lia].
  apply path_nil_inv in Hw as [f ->]. simpl in Hlen. lia.
Qed.

(** X11 at the table [{a: 3, b: 2, c: 1}]. *)
Lemma X11_code_length_bounds_witness :
  let frequencies : gmap Z Z := {[ 97 := 3; 98 := 2; 99 := 1 ]} in
  SortSpec insertionSort ∧
  ranges_over frequencies (map_to_list frequencies) ∧
  (1 ≤ size frequencies)%nat ∧
  ∃ root, BuildHuffmanTree insertionSort (map_to_list frequencies) = Ret root ∧
    ∀ c w, BuildHuffmanCodes (Some root) [] ∅ !! c = Some w →
      (length w ≤ size frequencies - 1)%nat ∧
      ((2 ≤ size frequencies)%nat → (1 ≤ length w)%nat).
Proof.
  intros frequencies.
  assert (H1 : ranges_over frequencies (map_to_list frequencies))
    by (unfold ranges_over; reflexivity).
  assert (H2 : (1 ≤ size frequencies)%nat) by (vm_compute; lia).
  split; [apply insertionSort_spec|]. split; [exact H1|]. split; [exact H2|].
  exact (X11_code_length_bounds insertionSort frequencies
           (map_to_list frequencies) insertionSort_spec H1 H2).
Defined.

(** ** The methods of [Nodes] *)

Lemma index_Some n i a :
  index n i = Some a ↔ 0 ≤ i ∧ n !! Z.to_nat i = Some a.
Proof.
  unfold index. destruct (0 <=? i) eqn:E.
  - apply Z.leb_le in E. tauto.
  - apply Z.leb_gt in E. split; [done|]. lia.
Qed.

Lemma index_in_range n i : is_Some (index n i) ↔ 0 ≤ i < Nodes_Len n.
Proof.
  unfold Nodes_Len. split.
  - intros [a Ha]. apply index_Some in Ha as [H0 Ha].
    apply lookup_lt_Some in Ha. lia.
  - intros [H0 H1]. destruct (lookup_lt_is_Some_2 n (Z.to_nat i)) as [a Ha];
      [lia|]. exists a. by apply index_Some.
Qed.


(** X13: [Swap] panics exactly when an index is out of range; otherwise the
    collection it leaves has the nodes of the two positions exchanged and all
    the others in place, is a rearrangement of the same length, and a second
    [Swap] of the same positions restores it. *)
Theorem X13_Swap_exchanges_two_nodes (n : list Node) (i j : Z) :
  (Nodes_Swap n i j = Panic IndexOutOfRange ↔
     ¬ (0 ≤ i < Nodes_Len n ∧ 0 ≤ j < Nodes_Len n)) ∧
  (∀ n', Nodes_Swap n i j = Ret n' →
     index n' i = index n j ∧ index n' j = index n i ∧
     (∀ k, k ≠ i → k ≠ j → index n' k = index n k) ∧
     n' ≡ₚ n ∧ Nodes_Len n' = Nodes_Len n ∧
     Nodes_Swap n' i j = Ret n).
Proof.
  unfold Nodes_Swap. split.
  - rewrite <- !index_in_range.
    destruct (index n i), (index n j); split; intros H; try done;
      try (exfalso; apply H; split; by eexists);
      try (intros [[? ?] [? ?]]; done).
  - intros n'. destruct (index n j) as [b|] eqn:Hj; [|done].
    destruct (index n i) as [a|] eqn:Hi; [|done]. intros [= <-].
    apply index_Some in Hi as [Hi0 Hi], Hj as [Hj0 Hj].
    pose proof (lookup_lt_Some _ _ _ Hi) as Hil.
    pose proof (lookup_lt_Some _ _ _ Hj) as Hjl.
    assert (index (<[Z.to_nat j:=a]> (<[Z.to_nat i:=b]> n)) i = Some b) as Hi'.
    { apply index_Some. split; [done|].
      destruct (decide (Z.to_nat j = Z.to_nat i)) as [E|E].
      - rewrite E, list_lookup_insert_eq by (by rewrite length_insert).
        rewrite E in Hj. congruence.
      - rewrite list_lookup_insert_ne by done.
        by rewrite list_lookup_insert_eq. }
    assert (index (<[Z.to_nat j:=a]> (<[Z.to_nat i:=b]> n)) j = Some a) as Hj'.
    { apply index_Some. split; [done|].
      by rewrite list_lookup_insert_eq by (by rewrite length_insert). }
    split_and!.
    + done.
    + done.
    + intros k Hki Hkj. unfold index. destruct (0 <=? k) eqn:Hk; [|done].
      apply Z.leb_le in Hk. rewrite !list_lookup_insert_ne by lia. done.
    + by apply swap_Permutation.
    + unfold Nodes_Len. by rewrite !length_insert.
    + rewrite Hi', Hj'. f_equal.
      apply list_eq. intros k.
      destruct (decide (k = Z.to_nat j)) as [->|Hkj].
      * by rewrite list_lookup_insert_eq by (by rewrite !length_insert).
      * rewrite list_lookup_insert_ne by done.
        destruct (decide (k = Z.to_nat i)) as [->|Hki].
        -- by rewrite list_lookup_insert_eq by (by rewrite !length_insert).
        -- by rewrite !list_lookup_insert_ne by done.
Qed.

(** ** The two programs *)

Lemma fair_empty ch : fair ch → range_build ch ∅ = [].
Proof.
  intros Hf. specialize (Hf ∅). unfold ranges_over in Hf.
  rewrite map_to_list_empty in Hf. by apply Permutation_nil_r.
Qed.

(** X14: a book file that exists but is empty makes either program crash
    with an index out of range in [BuildHuffmanTree], before any file is
    written; a missing book file is a fatal reading error instead. *)
Theorem X14_empty_book_crashes sort (ch : choices) (w : world) :
  SortSpec sort → fair ch →
  (ReadFile w "book.txt" = Some [] →
     exit (main_encrypt sort ch w) = Crash IndexOutOfRange ∧
     after (main_encrypt sort ch w) = w) ∧
  (ReadFile w "/home/alfredo/IME/DSA/trabHuff/book.txt" = Some [] →
     exit (main_decrypt sort ch w) = Crash IndexOutOfRange ∧
     after (main_decrypt sort ch w) = w) ∧
  (ReadFile w "book.txt" = None →
     main_encrypt sort ch w = mkRun [] w FatalReading) ∧
  (ReadFile w "/home/alfredo/IME/DSA/trabHuff/book.txt" = None →
     main_decrypt sort ch w = mkRun [] w FatalReading).
Proof.
  intros Hs Hf.
  assert (∀ out, tables sort ch [] = out → out.2 = Panic IndexOutOfRange) as Ht.
  { intros out <-. unfold tables.
    change (count_frequencies []) with (∅ : gmap Z Z).
    by rewrite (fair_empty ch Hf), (BuildHuffmanTree_nil sort). }
  unfold main_encrypt, main_decrypt. split_and!; intros ->; try done.
  - pose proof (Ht _ eq_refl) as H. destruct (tables sort ch []) as [out r].
    simpl in H. by subst r.
  - pose proof (Ht _ eq_refl) as H. destruct (tables sort ch []) as [out r].
    simpl in H. by subst r.
Qed.

(** X14 on a world whose two book files are empty. *)
Lemma X14_empty_book_crashes_witness :
  let ch := mkChoices map_to_list (λ _ l, l) map_to_list map_to_list in
  let w := mkWorld {[ "book.txt"%string := [] ]} ∅ in
  SortSpec insertionSort ∧ fair ch ∧ ReadFile w "book.txt" = Some [] ∧
  exit (main_encrypt insertionSort ch w) = Crash IndexOutOfRange ∧
  after (main_encrypt insertionSort ch w) = w.
Proof.
  intros ch w.
  assert (H1 : fair ch) by (intros m; unfold ranges_over; reflexivity).
  assert (H2 : ReadFile w "book.txt" = Some []) by done.
  split; [apply insertionSort_spec|]. split; [exact H1|]. split; [exact H2|].
  exact (proj1 (X14_empty_book_crashes insertionSort ch w
                  insertionSort_spec H1) H2).
Defined.

(** The tree and the code map a program builds from a book that is not
    empty: the characters with a code are the characters of the book. *)
Lemma tables_of_book sort ch book :
  SortSpec sort → fair ch → book ≠ [] →
  ∃ out t, tables sort ch book =
      (out, Ret (node_of t, BuildHuffmanCodes (Some (node_of t)) [] ∅)) ∧
    BuildHuffmanTree sort (range_build ch (count_frequencies book))
      = Ret (node_of t) ∧
    ∀ c, is_Some (BuildHuffmanCodes (Some (node_of t)) [] ∅ !! c) ↔ c ∈ book.
Proof.
  intros Hs Hf Hne.
  destruct (BuildHuffmanTree_tree sort (count_frequencies book)
              (range_build ch (count_frequencies book)) Hs (Hf _))
    as (t & Hroot & Hnd & Hdom).
  - destruct book as [|c book]; [done|].
    assert (is_Some (count_frequencies (c :: book) !! c)) as Hc
      by (apply count_frequencies_dom; by left).
    apply Nat.le_succ_l, Nat.neq_0_lt_0. by eapply map_size_ne_0_lookup_2.
  - eexists _, t. unfold tables. rewrite Hroot. split; [done|].
    split; [done|]. intros c.
    rewrite <- count_frequencies_dom, <- Hdom, path_leaves.
    split; intros [p Hp]; exists p; by apply (codes_path t c p Hnd).
Qed.

(** X15: when [book.txt] is not empty the encoding program ends in one of
    two ways decided by [begin.txt]: if all its characters occur in
    [book.txt] (and [encrypted.txt] can be written) the program exits
    normally, [encrypted.txt] holds ['0'] and ['1'] only and no other file
    has changed; otherwise it stops on a fatal error naming the first
    character of [begin.txt] that does not occur in [book.txt], and no file
    has changed. *)
Theorem X15_main_encrypt_outcome sort (ch : choices) (w : world)
    (book content : list Z) :
  SortSpec sort → fair ch →
  ReadFile w "book.txt" = Some book → book ≠ [] →
  ReadFile w "begin.txt" = Some content →
  (Forall (λ x, x ∈ book) content →
   "encrypted.txt"%string ∉ unwritable w →
     exit (main_encrypt sort ch w) = Exit0 ∧
     (∃ bits, ReadFile (after (main_encrypt sort ch w)) "encrypted.txt"
              = Some bits ∧ bit_string bits) ∧
     ∀ name, name ≠ "encrypted.txt"%string →
       ReadFile (after (main_encrypt sort ch w)) name = ReadFile w name) ∧
  (∀ pre c post, content = pre ++ c :: post →
     Forall (λ x, x ∈ book) pre → c ∉ book →
     exit (main_encrypt sort ch w) = FatalEncrypting (NoCode c) ∧
     after (main_encrypt sort ch w) = w).
Proof.
  intros Hs Hf Hbook Hne Hbegin.
  destruct (tables_of_book sort ch book Hs Hf Hne) as (out & t & Ht & _ & Hdom).
  unfold main_encrypt. rewrite Hbook, Ht. split.
  - intros Hin Hw. unfold EncryptFile, WriteFile. rewrite Hbegin.
    assert (encrypt (BuildHuffmanCodes (Some (node_of t)) [] ∅) content
            = inr (code_concat (BuildHuffmanCodes (Some (node_of t)) [] ∅)
                     content)) as He.
    { unfold encrypt. rewrite encrypt_loop_ok; [done|].
      eapply Forall_impl; [done|]. intros x Hx. by apply Hdom. }
    rewrite He, decide_False by done. cbn [exit after]. split_and!; [done| |].
    + eexists. unfold ReadFile. cbn [files]. rewrite lookup_insert_eq.
      split; [done|]. eapply encrypt_loop_bits; [|constructor|exact He].
      intros c' w' Hw'.
      destruct (BuildHuffmanCodes_lookup _ _ _ _ _ Hw') as [E|(p & -> & Hp)];
        [by rewrite lookup_empty in E|done].
    + intros name Hname. unfold ReadFile. cbn [files].
      by rewrite lookup_insert_ne.
  - intros pre c post -> Hpre Hc. unfold EncryptFile, encrypt. rewrite Hbegin.
    rewrite encrypt_loop_first_missing; [done| |].
    + eapply Forall_impl; [done|]. intros x Hx. by apply Hdom.
    + apply eq_None_not_Some. by rewrite Hdom.
Qed.

(** X15 with the book ["aab"] and [begin.txt] holding ["abc"]. *)
Lemma X15_main_encrypt_outcome_witness :
  let ch := mkChoices map_to_list (λ _ l, l) map_to_list map_to_list in
  let w := mkWorld {[ "book.txt"%string := [97; 97; 98];
                      "begin.txt"%string := [97; 98; 99] ]} ∅ in
  SortSpec insertionSort ∧ fair ch ∧
  ReadFile w "book.txt" = Some [97; 97; 98] ∧ [97; 97; 98] ≠ ([] : list Z) ∧
  ReadFile w "begin.txt" = Some [97; 98; 99] ∧
  exit (main_encrypt insertionSort ch w) = FatalEncrypting (NoCode 99) ∧
  after (main_encrypt insertionSort ch w) = w.
Proof.
  intros ch w.
  assert (H1 : fair ch) by (intros m; unfold ranges_over; reflexivity).
  assert (H2 : ReadFile w "book.txt" = Some [97; 97; 98]) by done.
  assert (H3 : [97; 97; 98] ≠ ([] : list Z)) by done.
  assert (H4 : ReadFile w "begin.txt" = Some [97; 98; 99]) by done.
  split; [apply insertionSort_spec|]. split; [exact H1|]. split; [exact H2|].
  split; [exact H3|]. split; [exact H4|].
  apply (proj2 (X15_main_encrypt_outcome insertionSort ch w [97; 97; 98]
                  [97; 98; 99] insertionSort_spec H1 H2 H3 H4)
           [97; 98] 99 []); [done| |].
  - repeat constructor; apply list_elem_of_In; simpl; tauto.
  - intros H. apply list_elem_of_In in H. simpl in H. lia.
Defined.

Lemma node_of_inj t1 t2 : node_of t1 = node_of t2 → t1 = t2.
Proof.
  revert t2. induction t1 as [c f|f l IHl r IHr]; intros [c' f'|f' l' r'];
    simpl; intros H; try done.
  - by injection H as -> ->.
  - injection H as -> Hl Hr. by rewrite (IHl _ Hl), (IHr _ Hr).
Qed.




(** X17: without that last condition the two programs need not agree.  With
    the book ["ab"], whose two characters tie, a run of the encoding program
    that visits [a] first and a run of the decoding program that visits [b]
    first both exit normally, and [decrypted.txt] holds ["ba"] for the
    [begin.txt] ["ab"]. *)
Theorem X17_programs_can_disagree :
  let book : list Z := [97; 98] in
  let ch1 := mkChoices map_to_list (λ _ l, l) map_to_list map_to_list in
  let ch2 := mkChoices map_to_list (λ _ l, l) (λ m, reverse (map_to_list m))
               map_to_list in
  let w := mkWorld {[ "book.txt"%string := book;
                      "/home/alfredo/IME/DSA/trabHuff/book.txt"%string := book;
                      "begin.txt"%string := [97; 98] ]} ∅ in
  fair ch1 ∧ fair ch2 ∧
  range_build ch1 (count_frequencies book) = [(97, 1); (98, 1)] ∧
  range_build ch2 (count_frequencies book) = [(98, 1); (97, 1)] ∧
  exit (main_encrypt insertionSort ch1 w) = Exit0 ∧
  ReadFile (after (main_encrypt insertionSort ch1 w)) "encrypted.txt"
    = Some [rune_0; rune_1] ∧
  exit (main_decrypt insertionSort ch2
          (after (main_encrypt insertionSort ch1 w))) = Exit0 ∧
  ReadFile (after (main_decrypt insertionSort ch2
                     (after (main_encrypt insertionSort ch1 w))))
    "decrypted.txt" = Some [98; 97].
Proof.
  intros book ch1 ch2 w. split_and!.
  - intros m. unfold ranges_over. reflexivity.
  - intros m. unfold ranges_over. apply reverse_Permutation.
  - by vm_compute.
  - by vm_compute.
  - by vm_compute.
  - by vm_compute.
  - by vm_compute.
  - by vm_compute.
Qed.

(** ** The tree built has the least cost *)

Lemma freqs_Br f l r : freqs (Br f l r) = freqs l ++ freqs r.
Proof. unfold freqs. simpl. by rewrite fmap_app. Qed.

Lemma weight_freqs t : weight t = sum_list_Z (freqs t).
Proof.
  induction t as [c f|f l IHl r IHr].
  - unfold freqs, sum_list_Z. simpl. lia.
  - rewrite freqs_Br, sum_list_Z_app. simpl. lia.
Qed.

Lemma height_nonneg t : 0 ≤ height t.
Proof. induction t; simpl; lia. Qed.

Lemma freqs_length_Br f l r : (2 ≤ length (freqs (Br f l r)))%nat.
Proof.
  assert (∀ t, (1 ≤ length (freqs t))%nat) as H.
  { induction t as [|f' l' IHl r' IHr]; [simpl; lia|].
    rewrite freqs_Br, length_app. lia. }
  rewrite freqs_Br, length_app. pose proof (H l). pose proof (H r). lia.
Qed.

(** Raising the weight of one leaf costs at most the raise times the
    height. *)
Lemma cost_raise t : ∀ u u' M h,
  freqs t ≡ₚ u :: M → u ≤ u' → height t ≤ h →
  ∃ t', freqs t' ≡ₚ u' :: M ∧ cost t' ≤ cost t + (u' - u) * h ∧
        height t' = height t.
Proof.
  induction t as [c f|f l IHl r IHr]; intros u u' M h Hp Hu Hh.
  - unfold freqs in Hp. simpl in Hp.
    apply Permutation_singleton_l in Hp. injection Hp as -> <-.
    exists (Leaf c u'). simpl in *. split_and!; [done| |done]. nia.
  - rewrite freqs_Br in Hp. simpl in Hh.
    assert (u ∈ freqs l ++ freqs r) as Hin by (rewrite Hp; by left).
    apply elem_of_app in Hin as [Hin|Hin].
    + apply elem_of_Permutation in Hin as [Ml Hl].
      assert (M ≡ₚ Ml ++ freqs r) as HM.
      { apply (inj (cons u)). by rewrite <- Hp, Hl. }
      destruct (IHl u u' Ml (h - 1) Hl Hu) as (l' & Hl' & Hc & Hh'); [lia|].
      exists (Br f l' r). rewrite freqs_Br. simpl. split_and!.
      * by rewrite Hl', HM.
      * assert (weight l' = weight l + (u' - u)) as Hw.
        { rewrite !weight_freqs, (sum_list_Z_perm _ _ Hl'),
            (sum_list_Z_perm _ _ Hl), !sum_list_Z_cons. lia. }
        nia.
      * by rewrite Hh'.
    + apply elem_of_Permutation in Hin as [Mr Hr].
      assert (M ≡ₚ freqs l ++ Mr) as HM.
      { apply (inj (cons u)). rewrite <- Hp, Hr. symmetry.
        apply Permutation_middle. }
      destruct (IHr u u' Mr (h - 1) Hr Hu) as (r' & Hr' & Hc & Hh'); [lia|].
      exists (Br f l r'). rewrite freqs_Br. simpl. split_and!.
      * rewrite Hr', HM. symmetry. apply Permutation_middle.
      * assert (weight r' = weight r + (u' - u)) as Hw.
        { rewrite !weight_freqs, (sum_list_Z_perm _ _ Hr'),
            (sum_list_Z_perm _ _ Hr), !sum_list_Z_cons. lia. }
        nia.
      * by rewrite Hh'.
Qed.

(** Splitting one leaf in two adds the weight of the leaf to the cost. *)
Lemma cost_split t : ∀ x y M,
  freqs t ≡ₚ (x + y) :: M →
  ∃ t', freqs t' ≡ₚ x :: y :: M ∧ cost t' = cost t + x + y.
Proof.
  induction t as [c f|f l IHl r IHr]; intros x y M Hp.
  - unfold freqs in Hp. simpl in Hp.
    apply Permutation_singleton_l in Hp. injection Hp as -> <-.
    exists (Br 0 (Leaf c x) (Leaf c y)). split; [done|]. simpl. lia.
  - rewrite freqs_Br in Hp.
    assert (x + y ∈ freqs l ++ freqs r) as Hin by (rewrite Hp; by left).
    apply elem_of_app in Hin as [Hin|Hin].
    + apply elem_of_Permutation in Hin as [Ml Hl].
      assert (M ≡ₚ Ml ++ freqs r) as HM.
      { apply (inj (cons (x + y))). by rewrite <- Hp, Hl. }
      destruct (IHl x y Ml Hl) as (l' & Hl' & Hc).
      exists (Br f l' r). rewrite freqs_Br. simpl. split.
      * by rewrite Hl', HM.
      * assert (weight l' = weight l) as Hw.
        { rewrite !weight_freqs, (sum_list_Z_perm _ _ Hl'),
            (sum_list_Z_perm _ _ Hl), !sum_list_Z_cons. lia. }
        lia.
    + apply elem_of_Permutation in Hin as [Mr Hr].
      assert (M ≡ₚ freqs l ++ Mr) as HM.
      { apply (inj (cons (x + y))). rewrite <- Hp, Hr. symmetry.
        apply Permutation_middle. }
      destruct (IHr x y Mr Hr) as (r' & Hr' & Hc).
      exists (Br f l r'). rewrite freqs_Br. simpl. split.
      * rewrite Hr', HM. by rewrite <- !Permutation_middle.
      * assert (weight r' = weight r) as Hw.
        { rewrite !weight_freqs, (sum_list_Z_perm _ _ Hr'),
            (sum_list_Z_perm _ _ Hr), !sum_list_Z_cons. lia. }
        lia.
Qed.

Lemma collapsible_leaves f c1 f1 c2 f2 :
  collapsible (Br f (Leaf c1 f1) (Leaf c2 f2)) f1 f2 [].
Proof.
  split; [done|]. intros z. exists (Leaf c1 z). simpl. split_and!; [done|lia..].
Qed.

Lemma collapsible_left f l r x y M :
  collapsible l x y M → height r ≤ height l →
  collapsible (Br f l r) x y (M ++ freqs r).
Proof.
  intros [Hp Hz] Hh. split.
  - by rewrite freqs_Br, Hp.
  - intros z. destruct (Hz z) as (l' & Hl' & Hc & Hh').
    exists (Br f l' r). rewrite freqs_Br. split_and!.
    + by rewrite Hl'.
    + assert (weight l' = weight l - (x + y) + z) as Hw.
      { rewrite !weight_freqs, (sum_list_Z_perm _ _ Hl'),
          (sum_list_Z_perm _ _ Hp), !sum_list_Z_cons. lia. }
      simpl. rewrite Z.max_l by done. rewrite Hc, Hw. ring.
    + simpl. lia.
Qed.

Lemma collapsible_right f l r x y M :
  collapsible r x y M → height l ≤ height r →
  collapsible (Br f l r) x y (freqs l ++ M).
Proof.
  intros [Hp Hz] Hh. split.
  - rewrite freqs_Br, Hp. by rewrite <- !Permutation_middle.
  - intros z. destruct (Hz z) as (r' & Hr' & Hc & Hh').
    exists (Br f l r'). rewrite freqs_Br. split_and!.
    + rewrite Hr'. by rewrite <- Permutation_middle.
    + assert (weight r' = weight r - (x + y) + z) as Hw.
      { rewrite !weight_freqs, (sum_list_Z_perm _ _ Hr'),
          (sum_list_Z_perm _ _ Hp), !sum_list_Z_cons. lia. }
      simpl. rewrite Z.max_r by done. rewrite Hc, Hw. ring.
    + simpl. lia.
Qed.

(** Every tree with two leaves or more has two leaves to merge at its
    greatest depth. *)
Lemma cost_collapse t :
  match t with
  | Leaf _ _ => True
  | Br _ _ _ => ∃ x y M, collapsible t x y M
  end.
Proof.
  induction t as [c f|f l IHl r IHr]; [done|].
  destruct l as [c1 f1|f1 l1 r1], r as [c2 f2|f2 l2 r2].
  - do 3 eexists. apply collapsible_leaves.
  - destruct IHr as (x & y & M & H). do 3 eexists.
    apply collapsible_right; [done|].
    pose proof (height_nonneg (Br f2 l2 r2)). simpl in *. lia.
  - destruct IHl as (x & y & M & H). do 3 eexists.
    apply collapsible_left; [done|].
    pose proof (height_nonneg (Br f1 l1 r1)). simpl in *. lia.
  - destruct (Z.le_ge_cases (height (Br f1 l1 r1)) (height (Br f2 l2 r2))).
    + destruct IHr as (x & y & M & H'). do 3 eexists.
      by apply collapsible_right.
    + destruct IHl as (x & y & M & H'). do 3 eexists.
      by apply collapsible_left.
Qed.

Lemma exchange_aux T D C x y M a b Rest :
  x :: y :: M ≡ₚ a :: b :: Rest → a ≤ b → Forall (λ z, b ≤ z) Rest →
  freqs T ≡ₚ (a + b) :: M → height T ≤ D →
  cost T = C - (x + y) * D + (a + b) * (D - 1) →
  a = x ∨ a ∈ M →
  ∃ t', freqs t' ≡ₚ (a + b) :: Rest ∧ cost t' + a + b ≤ C.
Proof.
  intros Hperm Hab Hrest HT HD HC Ha. rewrite Forall_forall in Hrest.
  destruct Ha as [->|Ha].
  - apply (inj (cons x)) in Hperm.
    assert (b ∈ y :: M) as Hb by (rewrite Hperm; by left).
    apply elem_of_cons in Hb as [->|Hb].
    + apply (inj (cons y)) in Hperm. exists T. split; [by rewrite HT, Hperm|lia].
    + apply elem_of_Permutation in Hb as [N HN].
      assert (Rest ≡ₚ y :: N) as HR.
      { apply (inj (cons b)). rewrite <- Hperm, HN. solve_Permutation. }
      assert (b ≤ y) as Hby by (apply Hrest; rewrite HR; by left).
      destruct (cost_raise T b y ((x + b) :: N) D) as (t' & Ht' & Hc & _);
        [rewrite HT, HN; solve_Permutation|done..|].
      exists t'. split; [rewrite Ht', HR; solve_Permutation|lia].
  - apply elem_of_Permutation in Ha as [N HN].
    assert (x :: y :: N ≡ₚ b :: Rest) as Hperm'.
    { apply (inj (cons a)). rewrite <- Hperm, HN. solve_Permutation. }
    assert (b ∈ x :: y :: N) as Hb by (rewrite Hperm'; by left).
    apply elem_of_cons in Hb as [->|Hb]; [|apply elem_of_cons in Hb as [->|Hb]].
    + apply (inj (cons x)) in Hperm'.
      assert (a ≤ y) as Hay.
      { assert (x ≤ y); [|lia]. apply Hrest. rewrite <- Hperm'. by left. }
      destruct (cost_raise T a y ((a + x) :: N) D) as (t' & Ht' & Hc & _);
        [rewrite HT, HN; solve_Permutation|done..|].
      exists t'. split; [rewrite Ht', <- Hperm'; solve_Permutation|lia].
    + assert (Rest ≡ₚ x :: N) as HR.
      { apply (inj (cons y)). rewrite <- Hperm'. solve_Permutation. }
      assert (a ≤ x) as Hax.
      { assert (y ≤ x); [|lia]. apply Hrest. rewrite HR. by left. }
      destruct (cost_raise T a x ((a + y) :: N) D) as (t' & Ht' & Hc & _);
        [rewrite HT, HN; solve_Permutation|done..|].
      exists t'. split; [rewrite Ht', HR; solve_Permutation|lia].
    + apply elem_of_Permutation in Hb as [N2 HN2].
      assert (Rest ≡ₚ x :: y :: N2) as HR.
      { apply (inj (cons b)). rewrite <- Hperm', HN2. solve_Permutation. }
      assert (b ≤ x) as Hbx by (apply Hrest; rewrite HR; by left).
      assert (b ≤ y) as Hby by (apply Hrest; rewrite HR; right; by left).
      destruct (cost_raise T a x ((a + b) :: b :: N2) D)
        as (t1 & Ht1 & Hc1 & Hh1); [|lia|done|].
      { rewrite HT, HN, HN2. solve_Permutation. }
      destruct (cost_raise t1 b y (x :: (a + b) :: N2) D)
        as (t2 & Ht2 & Hc2 & _); [|done|lia|].
      { rewrite Ht1. solve_Permutation. }
      exists t2. split; [|lia].
      rewrite Ht2, HR. solve_Permutation.
Qed.

(** The exchange step: in any tree two leaves of least weight can be made
    one leaf of their joint weight at a gain of at least that weight. *)
Lemma cost_exchange f l r a b Rest :
  freqs (Br f l r) ≡ₚ a :: b :: Rest → a ≤ b → Forall (λ z, b ≤ z) Rest →
  ∃ t', freqs t' ≡ₚ (a + b) :: Rest ∧ cost t' + a + b ≤ cost (Br f l r).
Proof.
  intros Hp Hab Hrest.
  destruct (cost_collapse (Br f l r)) as (x & y & M & Hxy & Hz).
  destruct (Hz (a + b)) as (T & HT & HcT & HhT).
  assert (x :: y :: M ≡ₚ a :: b :: Rest) as Hperm by (by rewrite <- Hxy).
  assert (a ∈ x :: y :: M) as Ha by (rewrite Hperm; by left).
  apply elem_of_cons in Ha as [Ha|Ha]; [|apply elem_of_cons in Ha as [Ha|Ha]].
  - eapply (exchange_aux T _ _ x y M); eauto.
  - eapply (exchange_aux T _ _ y x M); eauto.
    + rewrite <- Hperm. solve_Permutation.
    + rewrite HcT. ring.
  - eapply (exchange_aux T _ _ x y M); eauto.
Qed.

Lemma exact_weight_nonneg t : exact t → 0 ≤ weight t.
Proof. induction t as [c f|f l IHl r IHr]; simpl; [done|]. intuition lia. Qed.

Lemma Freq_node_of t : exact t → Freq (node_of t) = weight t.
Proof. destruct t; simpl; [done|]. by intros [-> _]. Qed.

Lemma perm_fmap_inv {A B} (f : A → B) (ks : list A) : ∀ l,
  l ≡ₚ f <$> ks → ∃ ks', l = f <$> ks' ∧ ks' ≡ₚ ks.
Proof.
  induction ks as [|k ks IH]; intros l Hl.
  - apply Permutation_nil_r in Hl as ->. by exists [].
  - rewrite fmap_cons in Hl.
    apply Permutation_cons_inv_r in Hl as (l1 & l2 & -> & Hl).
    destruct (IH (l1 ++ l2)) as (ks' & Hks' & Hp); [done|].
    symmetry in Hks'. apply fmap_app_inv in Hks' as (k1 & k2 & -> & -> & ->).
    exists (k1 ++ k :: k2). split; [by rewrite fmap_app|].
    by rewrite <- Permutation_middle, Hp.
Qed.

Lemma weights_nonneg ts :
  Forall exact ts → Forall (λ z, 0 ≤ z) (weight <$> ts).
Proof.
  intros H. apply Forall_fmap. eapply Forall_impl; [done|].
  intros t. apply exact_weight_nonneg.
Qed.

(** The loop ends with a tree of least cost over the collection it starts
    from: [U] is the tree above the nodes of the collection, taken as
    leaves. *)
Lemma merge_loop_least_cost sort fuel : ∀ ts,
  SortSpec sort → (length ts ≤ S fuel)%nat → ts ≠ [] →
  Forall exact ts → sum_list_Z (weight <$> ts) ≤ int_max →
  StronglySorted ascending (node_of <$> ts) →
  ∃ t U, merge_loop sort fuel (node_of <$> ts) = Ret [node_of t] ∧
    freqs U ≡ₚ weight <$> ts ∧
    cost t = cost U + sum_list_Z (cost <$> ts) ∧
    ∀ V, freqs V ≡ₚ weight <$> ts → cost U ≤ cost V.
Proof.
  induction fuel as [|fuel IH]; intros ts Hs Hlen Hne Hex Hsum Hsorted.
  - destruct ts as [|t0 [|t1 ts]]; [done| |simpl in Hlen; lia].
    exists t0, (Leaf 0 (weight t0)). split_and!; try done.
    + unfold sum_list_Z. simpl. lia.
    + intros [c f|f l r] HV; simpl; [done|].
      apply Permutation_length in HV. pose proof (freqs_length_Br f l r).
      simpl in HV. lia.
  - destruct ts as [|ta [|tb rest]]; [done| |].
    + exists ta, (Leaf 0 (weight ta)). split_and!; try done.
      * unfold sum_list_Z. simpl. lia.
      * intros [c f|f l r] HV; simpl; [done|].
        apply Permutation_length in HV. pose proof (freqs_length_Br f l r).
        simpl in HV. lia.
    + apply Forall_cons in Hex as [Ha Hex]. apply Forall_cons in Hex as [Hb Hex].
      rewrite !fmap_cons, !sum_list_Z_cons in Hsum.
      pose proof (exact_weight_nonneg _ Ha) as Hwa.
      pose proof (exact_weight_nonneg _ Hb) as Hwb.
      pose proof (sum_list_Z_nonneg _ (weights_nonneg _ Hex)) as Hwr.
      set (tp := Br (weight ta + weight tb) ta tb).
      assert (parent (node_of ta) (node_of tb) = node_of tp) as Hparent.
      { unfold parent, tp. simpl. rewrite !Freq_node_of by done.
        unfold int_add. rewrite wrap_id; [done|].
        unfold is_int, int_min, int_max, int_bits in *. lia. }
      assert (exact tp) as Hp by (by split_and!).
      rewrite !fmap_cons. cbn [merge_loop]. rewrite Hparent.
      change [node_of tp] with (node_of <$> [tp]). rewrite <- fmap_app.
      destruct (perm_fmap_inv node_of (rest ++ [tp])
                  (sort (node_of <$> rest ++ [tp])))
        as (ts' & Hts' & Hperm); [apply sort_Permutation|].
      assert (weight <$> ts' ≡ₚ (weight ta + weight tb) :: (weight <$> rest))
        as Hweights.
      { rewrite Hperm, fmap_app. simpl. solve_Permutation. }
      destruct (IH ts') as (t & U' & Hloop & HU' & Hcost & Hopt); try done.
      * rewrite Hperm, length_app. simpl in *. lia.
      * intros ->. apply Permutation_nil_l in Hperm. by destruct rest.
      * rewrite Hperm. apply Forall_app. split; [done|]. by constructor.
      * rewrite (sum_list_Z_perm _ _ Hweights), sum_list_Z_cons. lia.
      * rewrite <- Hts'. apply sort_ascending.
      * destruct (cost_split U' (weight ta) (weight tb) (weight <$> rest))
          as (U & HU & HcU); [by rewrite HU', Hweights|].
        exists t, U. rewrite Hts'. split_and!; try done.
        -- rewrite Hcost, HcU.
           assert (cost <$> ts' ≡ₚ cost tp :: (cost <$> rest)) as Hcosts.
           { rewrite Hperm, fmap_app. simpl. solve_Permutation. }
           rewrite (sum_list_Z_perm _ _ Hcosts), !sum_list_Z_cons. simpl. lia.
        -- intros V HV. rewrite !fmap_cons in Hsorted.
           apply StronglySorted_inv in Hsorted as [Hsorted Hfirst].
           apply StronglySorted_inv in Hsorted as [_ Hsecond].
           apply Forall_cons in Hfirst as [Hab _].
           apply ascending_le in Hab. rewrite !Freq_node_of in Hab by done.
           assert (Forall (λ z, weight tb ≤ z) (weight <$> rest)) as Hrest.
           { apply Forall_fmap. rewrite Forall_fmap in Hsecond.
             rewrite Forall_forall in Hsecond, Hex. apply Forall_forall.
             intros x Hx. specialize (Hsecond x Hx). simpl in Hsecond.
             apply ascending_le in Hsecond.
             by rewrite !Freq_node_of in Hsecond by auto. }
           destruct V as [c f|f l r].
           { apply Permutation_length in HV. simpl in HV. lia. }
           destruct (cost_exchange f l r _ _ _ HV Hab Hrest) as (V' & HV' & Hc).
           assert (cost U' ≤ cost V') by (apply Hopt; by rewrite HV', Hweights).
           lia.
Qed.

Lemma path_length_from_node_of t : ∀ d,
  path_length_from d (node_of t) = cost t + d * weight t.
Proof.
  induction t as [c f|f l IHl r IHr]; intros d; simpl; [lia|].
  rewrite IHl, IHr. lia.
Qed.

Lemma weighted_path_length_node_of t :
  weighted_path_length (node_of t) = cost t.
Proof. unfold weighted_path_length. rewrite path_length_from_node_of. lia. Qed.

(** The working collection is made of well-shaped trees whose leaves, with
    their weights, are the entries of the table. *)
Lemma BuildHuffmanTree_leaf_entries sort entries :
  SortSpec sort → entries ≠ [] →
  ∃ t, BuildHuffmanTree sort entries = Ret (node_of t) ∧
       leaf_entries t ≡ₚ entries.
Proof.
  intros Hs Hne.
  destruct (BuildHuffmanTree_rule sort
    (λ nodes, ∃ ts, nodes = node_of <$> ts ∧ ts ≫= leaf_entries ≡ₚ entries))
    with (entries := entries) as (root & Hroot & ts & Hts & Hl); [| |done| |].
  - intros l l' Hp (ts & -> & Hts).
    destruct (perm_fmap_inv node_of ts l') as (ts' & -> & Hp'); [done|].
    exists ts'. split; [done|]. by rewrite Hp'.
  - intros a b rest (ts & Hts & Hl).
    destruct ts as [|ta [|tb ts]]; try done.
    rewrite !fmap_cons in Hts. injection Hts as -> -> ->.
    exists (ts ++ [Br (int_add (Freq (node_of ta)) (Freq (node_of tb))) ta tb]).
    split; [by rewrite fmap_app|].
    rewrite bind_app, bind_singleton. rewrite !bind_cons in Hl.
    rewrite <- Hl. simpl. solve_Permutation.
  - exists ((λ e, Leaf e.1 e.2) <$> entries). split.
    + by rewrite <- list_fmap_compose.
    + clear Hne. induction entries as [|[c f] es IH]; [done|].
      rewrite fmap_cons, bind_cons, IH. done.
  - destruct ts as [|t [|? ?]]; try done. injection Hts as ->.
    rewrite bind_singleton in Hl. by exists t.
Qed.

(** The construction is optimal for the cost. *)
Lemma BuildHuffmanTree_least_cost sort (entries : list (Z * Z)) :
  SortSpec sort →
  entries ≠ [] →
  Forall (λ e, 0 ≤ e.2) entries →
  sum_list_Z entries.*2 ≤ int_max →
  ∃ t, BuildHuffmanTree sort entries = Ret (node_of t) ∧
    leaf_entries t ≡ₚ entries ∧
    ∀ u : tree, leaf_entries u ≡ₚ entries →
      cost t ≤ cost u.
Proof.
  intros Hs Hne Hpos Hsum.
  destruct (BuildHuffmanTree_leaf_entries sort entries Hs Hne) as (t & Hroot & Hl).
  exists t. split_and!; [done..|]. intros u Hu.
  unfold BuildHuffmanTree in Hroot.
  assert (leaf <$> entries = node_of <$> ((λ e, Leaf e.1 e.2) <$> entries)) as E
    by (by rewrite <- list_fmap_compose).
  destruct (perm_fmap_inv node_of ((λ e, Leaf e.1 e.2) <$> entries)
              (sort (leaf <$> entries))) as (ts & Hts & Hp).
  { rewrite <- E. apply sort_Permutation. }
  assert (weight <$> ts ≡ₚ entries.*2) as Hw.
  { rewrite Hp, <- list_fmap_compose. done. }
  assert (Forall (λ t, cost t = 0) ts) as Hc.
  { rewrite Hp. apply Forall_fmap, Forall_forall. by intros. }
  destruct (merge_loop_least_cost sort (length ts) ts Hs) as (t' & U & Hloop & HU & Hcost & Hopt).
  - lia.
  - intros ->. apply Permutation_nil_l in Hp. by destruct entries.
  - rewrite Hp. apply Forall_fmap. eapply Forall_impl; [done|]. by intros.
  - by rewrite (sum_list_Z_perm _ _ Hw).
  - rewrite <- Hts. apply sort_ascending.
  - rewrite Hts, length_fmap, Hloop in Hroot. injection Hroot as Hroot.
    apply node_of_inj in Hroot as ->.
    assert (sum_list_Z (cost <$> ts) = 0) as Hz.
    { clear -Hc. induction Hc as [|x l Hx _ IH]; [done|].
      rewrite fmap_cons, sum_list_Z_cons. lia. }
    rewrite Hcost, Hz, Z.add_0_r. apply Hopt.
    rewrite Hw. unfold freqs. by rewrite Hu.
Qed.

(** X18: when the frequencies are not negative and their sum fits an [int],
    the tree [BuildHuffmanTree] returns has the characters of the table at
    its leaves with their frequencies, and its weighted path length (the sum
    of frequency times depth over the leaves) is the least of all code trees
    with these leaves: the construction is optimal, whatever the order of the
    table and however ties are sorted. *)
Theorem X18_least_weighted_path_length sort (entries : list (Z * Z)) :
  SortSpec sort →
  entries ≠ [] →
  Forall (λ e, 0 ≤ e.2) entries →
  sum_list_Z entries.*2 ≤ int_max →
  ∃ t, BuildHuffmanTree sort entries = Ret (node_of t) ∧
    leaf_entries t ≡ₚ entries ∧
    ∀ u : tree, leaf_entries u ≡ₚ entries →
      weighted_path_length (node_of t) ≤ weighted_path_length (node_of u).
Proof.
  intros Hs Hne Hpos Hsum.
  destruct (BuildHuffmanTree_least_cost sort entries Hs Hne Hpos Hsum)
    as (t & Hroot & Hl & Hopt).
  exists t. split_and!; [done..|]. intros u Hu.
  rewrite !weighted_path_length_node_of. by apply Hopt.
Qed.

(** X18 at the table [{a: 3, b: 2, c: 1}]. *)
Lemma X18_least_weighted_path_length_witness :
  let entries : list (Z * Z) := [(97, 3); (98, 2); (99, 1)] in
  SortSpec insertionSort ∧ entries ≠ [] ∧ Forall (λ e, 0 ≤ e.2) entries ∧
  sum_list_Z entries.*2 ≤ int_max ∧
  ∃ t, BuildHuffmanTree insertionSort entries = Ret (node_of t) ∧
    leaf_entries t ≡ₚ entries ∧
    ∀ u : tree, leaf_entries u ≡ₚ entries →
      weighted_path_length (node_of t) ≤ weighted_path_length (node_of u).
Proof.
  intros entries.
  assert (H1 : entries ≠ []) by done.
  assert (H2 : Forall (λ e, 0 ≤ e.2) entries) by (repeat constructor; simpl; lia).
  assert (H3 : sum_list_Z entries.*2 ≤ int_max) by (vm_compute; discriminate).
  split; [apply insertionSort_spec|]. split; [exact H1|]. split; [exact H2|].
  split; [exact H3|].
  exact (X18_least_weighted_path_length insertionSort entries
           insertionSort_spec H1 H2 H3).
Defined.

(** ** The number of bits of the encoded text *)

Lemma table_sum_perm g l k : l ≡ₚ k → table_sum g l = table_sum g k.
Proof. intros H. unfold table_sum. apply sum_list_Z_perm. by rewrite H. Qed.

Lemma table_sum_cons g e l : table_sum g (e :: l) = e.2 * g e.1 + table_sum g l.
Proof. done. Qed.

Lemma table_sum_app g l k : table_sum g (l ++ k) = table_sum g l + table_sum g k.
Proof. unfold table_sum. by rewrite fmap_app, sum_list_Z_app. Qed.

Lemma table_sum_nonneg (m : gmap Z Z) :
  (∀ c n, m !! c = Some n → 0 ≤ n) → 0 ≤ table_sum (λ _, 1) (map_to_list m).
Proof.
  intros H. unfold table_sum. apply sum_list_Z_nonneg, Forall_fmap, Forall_forall.
  intros [c n] Hin. apply elem_of_map_to_list, H in Hin. simpl. lia.
Qed.

(** One more occurrence of [x]: the count of [x] goes up by one, without
    wrap-around as long as the counts sum to less than the greatest [int]. *)
Lemma count_step g (m : gmap Z Z) x :
  (∀ c n, m !! c = Some n → 0 ≤ n) →
  table_sum (λ _, 1) (map_to_list m) < int_max →
  let m' := <[x := int_add (default 0 (m !! x)) 1]> m in
  table_sum g (map_to_list m') = table_sum g (map_to_list m) + g x ∧
  ∀ c n, m' !! c = Some n → 0 ≤ n.
Proof.
  intros Hpos Hsum m'.
  assert (0 ≤ default 0 (m !! x) ∧ default 0 (m !! x) + 1 ≤ int_max) as [H0 H1].
  { destruct (m !! x) as [n|] eqn:E; simpl.
    - pose proof (Hpos _ _ E).
      rewrite <- (table_sum_perm _ _ _ (map_to_list_delete m x n E)),
        table_sum_cons in Hsum. simpl in Hsum.
      assert (0 ≤ table_sum (λ _, 1) (map_to_list (delete x m))).
      { apply table_sum_nonneg. intros c k Hk.
        apply lookup_delete_Some in Hk as [_ Hk]. eauto. }
      lia.
    - unfold int_max, int_bits. lia. }
  assert (int_add (default 0 (m !! x)) 1 = default 0 (m !! x) + 1) as Hadd.
  { apply wrap_id. unfold is_int, int_min, int_max, int_bits in *. lia. }
  subst m'. rewrite Hadd. split.
  - destruct (m !! x) as [n|] eqn:E; simpl.
    + rewrite <- (insert_delete_eq m).
      rewrite (table_sum_perm _ _ _ (map_to_list_insert _ x (n + 1)
                 (lookup_delete_eq m x))).
      rewrite <- (table_sum_perm _ _ _ (map_to_list_delete m x n E)).
      rewrite !table_sum_cons. simpl. lia.
    + rewrite (table_sum_perm _ _ _ (map_to_list_insert _ x (0 + 1) E)).
      rewrite table_sum_cons. simpl. lia.
  - intros c n Hn. apply lookup_insert_Some in Hn as [[_ <-]|[_ Hn]]; [lia|].
    eauto.
Qed.

Lemma count_loop_sum g text : ∀ m : gmap Z Z,
  (∀ c n, m !! c = Some n → 0 ≤ n) →
  table_sum (λ _, 1) (map_to_list m) + Z.of_nat (length text) ≤ int_max →
  table_sum g (map_to_list
    (foldl (λ m char, <[char := int_add (default 0 (m !! char)) 1]> m) m text))
  = table_sum g (map_to_list m) + sum_list_Z (g <$> text) ∧
  ∀ c n,
    foldl (λ m char, <[char := int_add (default 0 (m !! char)) 1]> m) m text
      !! c = Some n → 0 ≤ n.
Proof.
  induction text as [|x text IH]; intros m Hpos Hsum.
  - simpl. unfold sum_list_Z. simpl. split; [lia|done].
  - cbn [foldl]. simpl length in Hsum.
    destruct (count_step g m x Hpos) as [Hg Hpos']; [lia|].
    destruct (count_step (λ _, 1) m x Hpos) as [H1 _]; [lia|].
    destruct (IH _ Hpos') as [IH1 IH2]; [lia|].
    split; [|done]. rewrite IH1, Hg, fmap_cons, sum_list_Z_cons. lia.
Qed.

(** Summing over the table of a text is summing over the text. *)
Lemma count_frequencies_sum g text :
  Z.of_nat (length text) ≤ int_max →
  table_sum g (map_to_list (count_frequencies text)) = sum_list_Z (g <$> text) ∧
  ∀ c n, count_frequencies text !! c = Some n → 0 ≤ n.
Proof.
  intros Hlen. unfold count_frequencies.
  destruct (count_loop_sum g text ∅) as [H1 H2].
  - intros c n. by rewrite lookup_empty.
  - rewrite map_to_list_empty. unfold table_sum, sum_list_Z. simpl. lia.
  - split; [|done]. rewrite H1, map_to_list_empty.
    unfold table_sum, sum_list_Z at 1. simpl. lia.
Qed.

Lemma code_concat_length codes text :
  Z.of_nat (length (code_concat codes text))
  = sum_list_Z (code_length codes <$> text).
Proof.
  induction text as [|c text IH]; [done|].
  unfold code_concat in *. rewrite bind_cons, length_app, fmap_cons,
    sum_list_Z_cons, Nat2Z.inj_add, IH. done.
Qed.

(** The frequencies times the code lengths add up to the cost. *)
Lemma tree_table_sum t0 (codes : gmap Z (list Z)) :
  (∀ c w, codes !! c = Some w ↔ path t0 w c) →
  ∀ t q, reach t0 q t →
    table_sum (code_length codes) (leaf_entries t)
    = cost t + Z.of_nat (length q) * weight t.
Proof.
  intros Hcodes. induction t as [c f|f l IHl r IHr]; intros q Hq.
  - simpl. rewrite table_sum_cons. unfold table_sum, sum_list_Z, code_length.
    simpl.
    assert (codes !! c = Some q) as ->.
    { apply Hcodes. rewrite <- (app_nil_r q).
      eapply reach_path; [done|constructor]. }
    simpl. lia.
  - simpl. rewrite table_sum_app.
    rewrite (IHl _ (reach_snoc_left _ _ _ _ _ Hq)).
    rewrite (IHr _ (reach_snoc_right _ _ _ _ _ Hq)).
    rewrite !length_app. simpl. lia.
Qed.

Lemma leaves_leaf_entries t : leaves (node_of t) = (leaf_entries t).*1.
Proof.
  induction t as [c f|f l IHl r IHr]; [done|].
  rewrite leaves_Br, IHl, IHr. simpl. by rewrite fmap_app.
Qed.

(** Encoding a text with any code tree that carries the table of the
    text. *)
Lemma encrypt_with_tree text entries (u : tree) :
  ranges_over (count_frequencies text) entries →
  Z.of_nat (length text) ≤ int_max →
  leaf_entries u ≡ₚ entries →
  encrypt (BuildHuffmanCodes (Some (node_of u)) [] ∅) text
    = inr (code_concat (BuildHuffmanCodes (Some (node_of u)) [] ∅) text) ∧
  Z.of_nat (length (code_concat (BuildHuffmanCodes (Some (node_of u)) [] ∅) text))
    = weighted_path_length (node_of u).
Proof.
  intros Hr Hlen Hu.
  assert (NoDup (leaves (node_of u))) as Hnd.
  { rewrite leaves_leaf_entries, Hu. by eapply ranges_over_NoDup. }
  split.
  - unfold encrypt. rewrite encrypt_loop_ok; [done|].
    apply Forall_forall. intros c Hc.
    assert (c ∈ leaves (node_of u)) as Hin.
    { rewrite leaves_leaf_entries, Hu.
      by apply (ranges_over_elem_of _ _ _ Hr), count_frequencies_dom. }
    apply path_leaves in Hin as [p Hp]. exists p. by apply codes_path.
  - rewrite code_concat_length, weighted_path_length_node_of.
    destruct (count_frequencies_sum
      (code_length (BuildHuffmanCodes (Some (node_of u)) [] ∅)) text Hlen)
      as [<- _].
    rewrite <- (table_sum_perm _ _ _ Hr), <- (table_sum_perm _ _ _ Hu).
    rewrite (tree_table_sum u _ (λ c w, codes_path u c w Hnd) u []
               (reach_here u)).
    simpl. lia.
Qed.

(** X19: for a text and any code tree whose leaves are the characters of
    the text with their numbers of occurrences, the encoder succeeds and
    the number of bits it produces is the weighted path length of the tree
    (the text being no longer than the greatest [int]). *)
Theorem X19_encoded_length_is_path_length (text : list Z)
    (entries : list (Z * Z)) (u : tree) :
  ranges_over (count_frequencies text) entries →
  Z.of_nat (length text) ≤ int_max →
  leaf_entries u ≡ₚ entries →
  ∃ bits,
    encrypt (BuildHuffmanCodes (Some (node_of u)) [] ∅) text = inr bits ∧
    Z.of_nat (length bits) = weighted_path_length (node_of u).
Proof.
  intros Hr Hlen Hu. eexists. by apply encrypt_with_tree with (entries := entries).
Qed.

(** X19 at the text ["aab"] and the tree with [b] left and [a] right. *)
Lemma X19_encoded_length_is_path_length_witness :
  let text : list Z := [97; 97; 98] in
  let u := Br 3 (Leaf 98 1) (Leaf 97 2) in
  ranges_over (count_frequencies text) (map_to_list (count_frequencies text)) ∧
  Z.of_nat (length text) ≤ int_max ∧
  leaf_entries u ≡ₚ map_to_list (count_frequencies text) ∧
  ∃ bits,
    encrypt (BuildHuffmanCodes (Some (node_of u)) [] ∅) text = inr bits ∧
    Z.of_nat (length bits) = weighted_path_length (node_of u).
Proof.
  intros text u.
  assert (H1 : ranges_over (count_frequencies text)
                 (map_to_list (count_frequencies text)))
    by (unfold ranges_over; reflexivity).
  assert (H2 : Z.of_nat (length text) ≤ int_max) by (vm_compute; discriminate).
  assert (H3 : leaf_entries u ≡ₚ map_to_list (count_frequencies text)).
  { assert (map_to_list (count_frequencies text) = [(97, 2); (98, 1)]) as ->
      by (by vm_compute).
    apply Permutation_swap. }
  split; [exact H1|]. split; [exact H2|]. split; [exact H3|].
  exact (X19_encoded_length_is_path_length text
           (map_to_list (count_frequencies text)) u H1 H2 H3).
Defined.

(** ** No code tree gives fewer bits *)

Lemma codes_relabel m t : ∀ code codes,
  BuildHuffmanCodes_node (node_of (relabel m t)) code codes =
  BuildHuffmanCodes_node (node_of t) code codes.
Proof.
  induction t as [c f|f l IHl r IHr]; intros code codes; [done|].
  simpl. by rewrite IHl, IHr.
Qed.

Lemma leaf_entries_relabel m t :
  leaf_entries (relabel m t)
  = (λ c, (c, default 0 (m !! c))) <$> leaves (node_of t).
Proof.
  induction t as [c f|f l IHl r IHr]; [done|].
  rewrite leaves_Br, fmap_app. simpl. by rewrite IHl, IHr.
Qed.

Lemma entries_of_table (m : gmap Z Z) entries :
  ranges_over m entries →
  entries = (λ c, (c, default 0 (m !! c))) <$> entries.*1.
Proof.
  intros Hr.
  assert (Forall (λ e, m !! e.1 = Some e.2) entries) as H.
  { apply Forall_forall. intros [c n] Hin. unfold ranges_over in Hr.
    rewrite Hr in Hin. by apply elem_of_map_to_list in Hin. }
  clear Hr. induction H as [|[c n] es Hc _ IH]; [done|].
  rewrite !fmap_cons. simpl in *. by rewrite Hc, <- IH.
Qed.

Lemma table_sum_one l : table_sum (λ _, 1) l = sum_list_Z l.*2.
Proof.
  unfold table_sum. induction l as [|e l IH]; [done|].
  rewrite !fmap_cons, !sum_list_Z_cons, IH. lia.
Qed.

(** X20: the tree built from the table of a text encodes the text in the
    fewest bits: no code tree over the characters of the text, whatever its
    shape, makes the encoder produce a shorter output (the text being not
    empty and no longer than the greatest [int]). *)
Theorem X20_fewest_bits sort (text : list Z) (entries : list (Z * Z)) :
  SortSpec sort →
  ranges_over (count_frequencies text) entries →
  text ≠ [] →
  Z.of_nat (length text) ≤ int_max →
  ∃ root bits,
    BuildHuffmanTree sort entries = Ret root ∧
    encrypt (BuildHuffmanCodes (Some root) [] ∅) text = inr bits ∧
    ∀ (u : tree) bits',
      leaves (node_of u) ≡ₚ entries.*1 →
      encrypt (BuildHuffmanCodes (Some (node_of u)) [] ∅) text = inr bits' →
      (length bits ≤ length bits')%nat.
Proof.
  intros Hs Hr Hne Hlen.
  destruct (count_frequencies_sum (λ _, 1) text Hlen) as [Hsum Hpos].
  rewrite (table_sum_perm _ _ _ (symmetry Hr)), table_sum_one in Hsum.
  assert (sum_list_Z ((λ _ : Z, 1) <$> text) = Z.of_nat (length text)) as Hones.
  { clear. induction text as [|x text IH]; [done|].
    rewrite fmap_cons, sum_list_Z_cons, IH. simpl length. lia. }
  destruct (BuildHuffmanTree_least_cost sort entries Hs)
    as (t & Hroot & Hl & Hopt).
  - intros ->. destruct text as [|c text]; [done|].
    assert (c ∈ ([] : list (Z * Z)).*1) as Hc; [|by apply elem_of_nil in Hc].
    apply (ranges_over_elem_of _ _ _ Hr), count_frequencies_dom. by left.
  - apply Forall_forall. intros [c n] Hin. unfold ranges_over in Hr.
    rewrite Hr in Hin. apply elem_of_map_to_list in Hin. simpl. eauto.
  - lia.
  - destruct (encrypt_with_tree text entries t Hr Hlen Hl) as [Henc Hbits].
    eexists _, _. split_and!; [done..|]. intros u bits' Hu Henc'.
    set (u' := relabel (count_frequencies text) u).
    assert (leaf_entries u' ≡ₚ entries) as Hu'.
    { unfold u'. rewrite leaf_entries_relabel, Hu.
      by rewrite <- (entries_of_table _ _ Hr). }
    destruct (encrypt_with_tree text entries u' Hr Hlen Hu') as [Henc'' Hbits'].
    unfold u', BuildHuffmanCodes in *.
    rewrite codes_relabel in Henc'', Hbits'.
    rewrite Henc'' in Henc'. injection Henc' as <-.
    rewrite weighted_path_length_node_of in Hbits, Hbits'.
    specialize (Hopt _ Hu'). apply Nat2Z.inj_le. by rewrite Hbits, Hbits'.
Qed.

(** X20 at the text ["aaabbc"]. *)
Lemma X20_fewest_bits_witness :
  let text : list Z := [97; 97; 97; 98; 98; 99] in
  let entries := map_to_list (count_frequencies text) in
  SortSpec insertionSort ∧ ranges_over (count_frequencies text) entries ∧
  text ≠ [] ∧ Z.of_nat (length text) ≤ int_max ∧
  ∃ root bits,
    BuildHuffmanTree insertionSort entries = Ret root ∧
    encrypt (BuildHuffmanCodes (Some root) [] ∅) text = inr bits ∧
    ∀ (u : tree) bits',
      leaves (node_of u) ≡ₚ entries.*1 →
      encrypt (BuildHuffmanCodes (Some (node_of u)) [] ∅) text = inr bits' →
      (length bits ≤ length bits')%nat.
Proof.
  intros text entries.
  assert (H1 : ranges_over (count_frequencies text) entries)
    by (unfold ranges_over; reflexivity).
  assert (H2 : text ≠ []) by done.
  assert (H3 : Z.of_nat (length text) ≤ int_max) by (vm_compute; discriminate).
  split; [apply insertionSort_spec|]. split; [exact H1|]. split; [exact H2|].
  split; [exact H3|].
  exact (X20_fewest_bits insertionSort text entries insertionSort_spec H1 H2 H3).
Defined.

(** ** The counting loop *)

Lemma occurrences_cons c x text :
  occurrences c (x :: text)
  = (if decide (x = c) then 1 else 0) + occurrences c text.
Proof.
  unfold occurrences. rewrite filter_cons.
  destruct (decide (x = c)); simpl length; lia.
Qed.

Lemma occurrences_nonneg c text : 0 ≤ occurrences c text.
Proof. unfold occurrences. lia. Qed.

Lemma occurrences_le_length c text :
  occurrences c text ≤ Z.of_nat (length text).
Proof. unfold occurrences. pose proof (length_filter (λ x, x = c) text). lia. Qed.

Lemma occurrences_zero c text : occurrences c text = 0 ↔ c ∉ text.
Proof.
  induction text as [|x text IH].
  - split; [intros _; apply not_elem_of_nil|done].
  - rewrite occurrences_cons, not_elem_of_cons.
    pose proof (occurrences_nonneg c text).
    destruct (decide (x = c)) as [->|Hne].
    + split; [lia|]. by intros [? _].
    + rewrite Z.add_0_l, IH. split; [by split|by intros [_ ?]].
Qed.

Lemma count_loop_lookup text : ∀ (m : gmap Z Z) c,
  (∀ x, 0 ≤ default 0 (m !! x) ∧
        default 0 (m !! x) + occurrences x text ≤ int_max) →
  foldl (λ m char, <[char := int_add (default 0 (m !! char)) 1]> m) m text !! c
  = if decide (occurrences c text = 0) then m !! c
    else Some (default 0 (m !! c) + occurrences c text).
Proof.
  induction text as [|x text IH]; intros m c Hm.
  - by rewrite decide_True.
  - cbn [foldl].
    assert (int_add (default 0 (m !! x)) 1 = default 0 (m !! x) + 1) as Hadd.
    { destruct (Hm x) as [H0 H1]. rewrite occurrences_cons in H1.
      rewrite decide_True in H1 by done. pose proof (occurrences_nonneg x text).
      apply wrap_id. unfold is_int, int_min, int_max, int_bits in *. lia. }
    rewrite IH.
    + rewrite occurrences_cons. pose proof (occurrences_nonneg c text).
      rewrite Hadd. destruct (decide (x = c)) as [->|Hne].
      * rewrite lookup_insert_eq. simpl.
        rewrite (decide_False (P := 1 + _ = 0)) by lia.
        destruct (decide (occurrences c text = 0)) as [->|]; f_equal; lia.
      * rewrite lookup_insert_ne by done. rewrite Z.add_0_l. done.
    + intros y. specialize (Hm y). rewrite occurrences_cons in Hm.
      rewrite Hadd. destruct (decide (x = y)) as [->|Hne].
      * rewrite lookup_insert_eq. simpl. lia.
      * rewrite lookup_insert_ne by done. lia.
Qed.

Lemma count_frequencies_lookup (text : list Z) (c : Z) :
  Z.of_nat (length text) ≤ int_max →
  count_frequencies text !! c =
    if decide (c ∈ text) then Some (occurrences c text) else None.
Proof.
  intros Hlen. unfold count_frequencies. rewrite count_loop_lookup.
  - rewrite lookup_empty. simpl.
    destruct (decide (c ∈ text)) as [Hin|Hin].
    + rewrite decide_False; [by rewrite Z.add_0_l|].
      intros H. by apply occurrences_zero in H.
    + rewrite decide_True; [done|]. by apply occurrences_zero.
  - intros x. rewrite lookup_empty. simpl.
    pose proof (occurrences_le_length x text). lia.
Qed.

(** X21: the counting loop of [main] gives every character of the text its
    number of occurrences and no entry to any other character, for a text
    no longer than the greatest [int]. *)
Theorem X21_count_frequencies_counts (text : list Z) (c : Z) :
  Z.of_nat (length text) ≤ int_max →
  count_frequencies text !! c =
    if decide (c ∈ text) then Some (occurrences c text) else None.
Proof.
  intros Hlen. rewrite count_frequencies_lookup by done.
  by destruct (decide (c ∈ text)).
Qed.

(** X21 at the text ["aaabbc"] and the character [b]. *)
Lemma X21_count_frequencies_counts_witness :
  Z.of_nat (length [97; 97; 97; 98; 98; 99]) ≤ int_max ∧
  count_frequencies [97; 97; 97; 98; 98; 99] !! 98 = Some 2.
Proof.
  assert (H : Z.of_nat (length [97; 97; 97; 98; 98; 99]) ≤ int_max)
    by (vm_compute; discriminate).
  split; [exact H|].
  exact (X21_count_frequencies_counts [97; 97; 97; 98; 98; 99] 98 H).
Defined.

(** ** What the programs print *)

Lemma StronglySorted_weaken {A} (R R' : A → A → Prop) l :
  (∀ a b, R a b → R' a b) → StronglySorted R l → StronglySorted R' l.
Proof.
  intros H. induction 1 as [|x l Hl IH Hx]; constructor; [done|].
  eapply Forall_impl; [done|]. auto.
Qed.

Lemma count_frequencies_default text c :
  Z.of_nat (length text) ≤ int_max →
  default 0 (count_frequencies text !! c) = occurrences c text.
Proof.
  intros Hlen. rewrite count_frequencies_lookup by done.
  destruct (decide (c ∈ text)) as [|Hc]; [done|].
  simpl. symmetry. by apply occurrences_zero.
Qed.

(** X22: what either program prints before it encodes or decodes, for
    a book that is not empty and no longer than the greatest [int], in a run
    that follows the contracts of [range] and [sort.Slice]: one line for each
    different character of the book, with its number of occurrences, in
    order of non-increasing count; the header; and the entries of the code
    map, one line each. *)
Theorem X22_what_the_programs_print sort (ch : choices) (book : list Z) :
  SortSpec sort → fair ch → orderly ch →
  book ≠ [] → Z.of_nat (length book) ≤ int_max →
  ∃ letters root code_lines,
    tables sort ch book =
      (((λ c, FrequencyLine c (occurrences c book)) <$> letters) ++
       CodesHeader :: ((λ kv, CodeLine kv.1 kv.2) <$> code_lines),
       Ret (root, BuildHuffmanCodes (Some root) [] ∅)) ∧
    NoDup letters ∧ (∀ c, c ∈ letters ↔ c ∈ book) ∧
    StronglySorted (λ a b, occurrences b book ≤ occurrences a book) letters ∧
    code_lines ≡ₚ map_to_list (BuildHuffmanCodes (Some root) [] ∅).
Proof.
  intros Hs Hf (Hletters & Hslice & Hcodes) Hne Hlen.
  destruct (tables_of_book sort ch book Hs Hf Hne) as (out & t & _ & Hroot & _).
  pose (f := λ letter, default 0 (count_frequencies book !! letter)).
  pose (l := (range_letters ch (count_frequencies book)).*1).
  destruct (Hslice f l) as [Hperm Hsorted].
  exists (slice_sort ch (λ a b, f b <? f a) l), (node_of t),
    (range_codes ch (BuildHuffmanCodes (Some (node_of t)) [] ∅)).
  split_and!.
  - unfold tables. rewrite Hroot. f_equal. f_equal.
    apply list_fmap_ext. intros i c _. simpl. f_equal.
    by apply count_frequencies_default.
  - rewrite Hperm. unfold l. rewrite Hletters. apply NoDup_fst_map_to_list.
  - intros c. rewrite Hperm. unfold l.
    rewrite Hletters, <- (count_frequencies_dom book c).
    apply (ranges_over_elem_of (count_frequencies book)
             (map_to_list (count_frequencies book)) c).
    unfold ranges_over. reflexivity.
  - eapply StronglySorted_weaken; [|exact Hsorted].
    intros a b. unfold f. by rewrite !count_frequencies_default.
  - apply Hcodes.
Qed.

(** X22 with the book ["aab"], in a run that visits maps in their own order
    and sorts the letters by merging. *)
Lemma X22_what_the_programs_print_witness :
  let ch := mkChoices map_to_list
              (λ less l, @merge_sort Z (λ a b, less b a = false)
                           (λ a b, decide (less b a = false)) l)
              map_to_list map_to_list in
  let book : list Z := [97; 97; 98] in
  SortSpec insertionSort ∧ fair ch ∧ orderly ch ∧
  book ≠ [] ∧ Z.of_nat (length book) ≤ int_max ∧
  ∃ letters root code_lines,
    tables insertionSort ch book =
      (((λ c, FrequencyLine c (occurrences c book)) <$> letters) ++
       CodesHeader :: ((λ kv, CodeLine kv.1 kv.2) <$> code_lines),
       Ret (root, BuildHuffmanCodes (Some root) [] ∅)) ∧
    NoDup letters ∧ (∀ c, c ∈ letters ↔ c ∈ book) ∧
    StronglySorted (λ a b, occurrences b book ≤ occurrences a book) letters ∧
    code_lines ≡ₚ map_to_list (BuildHuffmanCodes (Some root) [] ∅).
Proof.
  intros ch book.
  assert (H1 : fair ch) by (intros m; unfold ranges_over; reflexivity).
  assert (H2 : orderly ch).
  { split_and!; [done| |done]. intros f l. simpl.
    assert (Transitive (λ a b : Z, (f a <? f b) = false)) as Htrans.
    { intros a b c. rewrite !Z.ltb_ge. lia. }
    assert (Total (λ a b : Z, (f a <? f b) = false)) as Htotal.
    { intros a b. rewrite !Z.ltb_ge. lia. }
    split; [apply merge_sort_Permutation|].
    eapply StronglySorted_weaken; [|by apply StronglySorted_merge_sort].
    intros a b. by rewrite Z.ltb_ge. }
  assert (H3 : book ≠ []) by done.
  assert (H4 : Z.of_nat (length book) ≤ int_max) by (vm_compute; discriminate).
  split; [apply insertionSort_spec|]. split; [exact H1|]. split; [exact H2|].
  split; [exact H3|]. split; [exact H4|].
  exact (X22_what_the_programs_print insertionSort ch book
           insertionSort_spec H1 H2 H3 H4).
Defined.
